(** * 123tv-tvguide: the staged, memoizing fetch pipeline of [epg_downloader.py]

    A shallow embedding of [src/epg_downloader.py]: the disk cache wrapper
    [download_cached_by_url], the retry loop [download_with_retries], the
    semaphore-bounded [gather_with_concurrency], the five download stages and
    the driver [download_and_make_epg].

    Coroutines are resumptions over an explicit [world]: a coroutine is a tree
    of atomic steps, split at its suspension points (the network awaits), and
    [gather_with_concurrency] interleaves the resumptions of its tasks under a
    schedule that is a parameter of every statement. *)

From Stdlib Require Import ZArith Lia.
From stdpp Require Import base tactics option list gmap strings pretty.

Open Scope Z_scope.

(** ** Exceptions *)

(** The exception classes the downloader can meet.  The first four are the
    built-in retryable ones of [download_with_retries]; the others are raised
    by [response.json()], by the loaders, by the image code or by aiohttp. *)
Inductive exn : Set :=
| TimeoutError | ClientConnectionError | ClientResponseError
| ServerDisconnectedError | JSONDecodeError | ValidationError | KeyError
| AttributeError | ClientPayloadError | TypeError | ValueError | OSError
| UnidentifiedImageError.

#[global] Instance exn_eq_dec : EqDecision exn.
Proof. solve_decision. Defined.

(** [issubclass sub sup]: Python's class hierarchy restricted to [exn]. *)
Definition issubclass (sub sup : exn) : bool :=
  match sub, sup with
  | ServerDisconnectedError, ClientConnectionError => true
  | JSONDecodeError, ValueError => true
  | UnidentifiedImageError, OSError => true
  | _, _ => bool_decide (sub = sup)
  end.

(** [isinstance e exc] for an exception [e] identified with its class. *)
Definition isinstance (e exc : exn) : bool := issubclass e exc.

(** A value or a raised exception: the result of code that does not suspend. *)
Inductive result (A : Type) : Type :=
| Ok (a : A)
| Exc (e : exn).
Arguments Ok {A} a.
Arguments Exc {A} e.

Definition result_bind {A B} (r : result A) (k : A → result B) : result B :=
  match r with Ok a => k a | Exc e => Exc e end.

(** ** Data model *)

(** Decoded JSON documents, as [response.json()] returns them (numbers are
    the integers the endpoints serve). *)
Inductive json : Type :=
| JNull
| JNum (z : Z)
| JStr (s : string)
| JArr (l : list json)
| JObj (l : list (string * json)).

(** What [getattr(response, method)()] yields: a document or the body. *)
Inductive raw : Type :=
| RJson (j : json)
| RBytes (b : list Byte.byte).

Inductive method : Set := MJson | MRead.

(** Modelled from the spec: [models.tvguide.ProgramImage] is not under src/;
    these are the attributes [download_program_images] reads and writes. *)
Record ProgramImage : Type := mkImage {
  image_url : string;
  width : Z;
  height : Z;
  bucketPath : string;
  bucketType : string }.

(** Modelled from the spec: [models.tvguide.ProgramDetails] is not under src/;
    the pipeline reads [mcoId] and [images] only. *)
Record ProgramDetails : Type := mkDetails {
  mcoId : option Z;
  images : list ProgramImage }.

(** Modelled from the spec: [models.tvguide.ShowsCast] is not under src/; the
    dummy cast of [download_program_cast] shows its two fields. *)
Record ShowsCast : Type := mkCast {
  cast_id : string;
  cast_items : list json }.

(** Modelled from the spec: [models.ustvgo.Program] is not under src/; the
    fields are those the pipeline and [make_xmltv] use. *)
Record Program : Type := mkProgram {
  program_id : Z;
  start_timestamp : Z;
  end_timestamp : Z;
  program_name : string;
  tags : list string;
  _details : option ProgramDetails;
  _cast : option ShowsCast }.

(** One entry of [channels.json].  [programs] is [None] until the key
    ['programs'] has been assigned. *)
Record Channel : Type := mkChannel {
  tvguide_id : option string;
  stream_id : string;
  channel_name : string;
  language : string;
  programs : option (list Program) }.

#[global] Instance ProgramImage_inhabited : Inhabited ProgramImage :=
  populate (mkImage "" 0 0 "" "").
#[global] Instance Program_inhabited : Inhabited Program :=
  populate (mkProgram 0 0 0 "" [] None None).
#[global] Instance Channel_inhabited : Inhabited Channel :=
  populate (mkChannel None "" "" "" None).

(** The Python values that travel through [download_with_retries] and the
    disk cache. *)
Inductive pyval : Type :=
| VNone
| VRaw (r : raw)
| VPrograms (l : list Program)
| VDetails (d : ProgramDetails)
| VCast (c : ShowsCast)
| VBytes (b : list Byte.byte)
| VTags (d : gmap (Z * Z) Z).

Definition nonempty {A} (l : list A) : bool :=
  match l with [] => false | _ :: _ => true end.

Definition json_truthy (j : json) : bool :=
  match j with
  | JNull => false
  | JNum z => negb (z =? 0)
  | JStr s => negb (String.eqb s "")
  | JArr l => nonempty l
  | JObj l => nonempty l
  end.

(** Python truthiness, [bool(v)].  Model objects define neither [__bool__]
    nor [__len__], so they are true. *)
Definition truthy (v : pyval) : bool :=
  match v with
  | VNone => false
  | VRaw (RJson j) => json_truthy j
  | VRaw (RBytes b) => nonempty b
  | VPrograms l => nonempty l
  | VDetails _ => true
  | VCast _ => true
  | VBytes b => nonempty b
  | VTags d => negb (bool_decide (d = ∅))
  end.

(** ** The world *)

Record request : Type := mkRequest {
  req_url : string;
  req_headers : list (string * string);
  req_method : method;
  req_timeout : Z }.

(** Names of the coroutines handed to [gather_with_concurrency]: the channel
    index, and the program index inside the channel. *)
Inductive task_id : Set :=
| TPrograms (ci : nat)
| TDetail (ci pi : nat)
| TCast (ci pi : nat)
| TImages (ci pi : nat)
| TTags.

#[global] Instance task_id_eq_dec : EqDecision task_id.
Proof. solve_decision. Defined.

(** Observable events, in the order they happen. *)
Inductive event : Type :=
| EvStart (t : task_id)            (* the task begins to run *)
| EvFinish (t : task_id)           (* the task returns *)
| EvRaise (t : task_id) (e : exn)  (* the task raises *)
| EvRmtree                         (* images/posters is removed *)
| EvWrite (path : string)          (* a file is written under images/posters *)
| EvEmit.                          (* make_xmltv is called *)

Record world : Type := mkWorld {
  cache : gmap string (pyval * Z);       (* DISK_CACHE: url -> (value, expire_time) *)
  now : Z;                               (* time.time(), in seconds *)
  fetched : list request;                (* every [session.get], oldest first *)
  warnings : list string;                (* logger.warning / logger.warn *)
  posters : gmap string (list Byte.byte);(* files under images/posters *)
  channels : list Channel;               (* the list loaded from channels.json *)
  trace : list event;
  ticks : nat;                           (* scheduling decisions taken so far *)
  xmltv : option (list Channel);         (* what make_xmltv was given *)
  archive : bool }.                      (* whether the .gz was written *)

Definition set_cache (f : gmap string (pyval * Z) → gmap string (pyval * Z)) (w : world) : world :=
  mkWorld (f (cache w)) (now w) (fetched w) (warnings w) (posters w) (channels w)
          (trace w) (ticks w) (xmltv w) (archive w).
Definition set_now (f : Z → Z) (w : world) : world :=
  mkWorld (cache w) (f (now w)) (fetched w) (warnings w) (posters w) (channels w)
          (trace w) (ticks w) (xmltv w) (archive w).
Definition set_fetched (f : list request → list request) (w : world) : world :=
  mkWorld (cache w) (now w) (f (fetched w)) (warnings w) (posters w) (channels w)
          (trace w) (ticks w) (xmltv w) (archive w).
Definition set_warnings (f : list string → list string) (w : world) : world :=
  mkWorld (cache w) (now w) (fetched w) (f (warnings w)) (posters w) (channels w)
          (trace w) (ticks w) (xmltv w) (archive w).
Definition set_posters (f : gmap string (list Byte.byte) → gmap string (list Byte.byte))
    (w : world) : world :=
  mkWorld (cache w) (now w) (fetched w) (warnings w) (f (posters w)) (channels w)
          (trace w) (ticks w) (xmltv w) (archive w).
Definition set_channels (f : list Channel → list Channel) (w : world) : world :=
  mkWorld (cache w) (now w) (fetched w) (warnings w) (posters w) (f (channels w))
          (trace w) (ticks w) (xmltv w) (archive w).
Definition set_trace (f : list event → list event) (w : world) : world :=
  mkWorld (cache w) (now w) (fetched w) (warnings w) (posters w) (channels w)
          (f (trace w)) (ticks w) (xmltv w) (archive w).
Definition set_ticks (f : nat → nat) (w : world) : world :=
  mkWorld (cache w) (now w) (fetched w) (warnings w) (posters w) (channels w)
          (trace w) (f (ticks w)) (xmltv w) (archive w).
Definition set_xmltv (x : option (list Channel)) (w : world) : world :=
  mkWorld (cache w) (now w) (fetched w) (warnings w) (posters w) (channels w)
          (trace w) (ticks w) x (archive w).
Definition set_archive (b : bool) (w : world) : world :=
  mkWorld (cache w) (now w) (fetched w) (warnings w) (posters w) (channels w)
          (trace w) (ticks w) (xmltv w) b.

Definition emit (e : event) : world → world := set_trace (λ t, t ++ [e]).
Definition log_warning (msg : string) : world → world := set_warnings (λ l, l ++ [msg]).

(** The environment: the network and the collaborators whose code is not in
    this repository's [src/].  [net n req] is what the [n]-th request of the
    run meets: the seconds it takes and the decoded body or the exception. *)
Record env : Type := mkEnv {
  net : nat → request → N * result raw;
  parse_program : json → result Program;        (* models.ustvgo.Program *)
  parse_details : json → result ProgramDetails; (* models.tvguide.ProgramDetails *)
  parse_cast : json → result ShowsCast;         (* models.tvguide.ShowsCast *)
  thumbnail : Z → Z → list Byte.byte → result (list Byte.byte);
                                                (* PIL: open, thumbnail, save *)
  image_size : list Byte.byte → result (Z * Z); (* PIL: Image.open(...).width/.height *)
  poster_url : string → string → result string; (* (furl(base_url) / 'images/posters' / path).url *)
  utcoffset : Z                                 (* local time minus UTC, in seconds *)
}.

(** ** Coroutines *)

(** A coroutine is a tree of atomic steps.  [Do f k] runs without suspending:
    the world becomes [f w] and the coroutine goes on as [k w], [w] being the
    world the step found.  [Await f k] is the same step taken when an awaited
    network operation completes: the coroutine is suspended before it, and
    other tasks may run in between.  [Spin] is a [while True] that has used
    up the fuel it was unrolled with. *)
Inductive coro (A : Type) : Type :=
| Ret (a : A)
| Raise (e : exn)
| Spin
| Do (f : world → world) (k : world → coro A)
| Await (f : world → world) (k : world → coro A).
Arguments Ret {A} a.
Arguments Raise {A} e.
Arguments Spin {A}.
Arguments Do {A} f k.
Arguments Await {A} f k.

Fixpoint bind {A B} (c : coro A) (k : A → coro B) : coro B :=
  match c with
  | Ret a => k a
  | Raise e => Raise e
  | Spin => Spin
  | Do f c' => Do f (λ w, bind (c' w) k)
  | Await f c' => Await f (λ w, bind (c' w) k)
  end.

(** [try: c except Exception as e: h e] *)
Fixpoint try_except {A} (c : coro A) (h : exn → coro A) : coro A :=
  match c with
  | Ret a => Ret a
  | Raise e => h e
  | Spin => Spin
  | Do f c' => Do f (λ w, try_except (c' w) h)
  | Await f c' => Await f (λ w, try_except (c' w) h)
  end.

Notation "'let*' x ':=' c1 'in' c2" := (bind c1 (λ x, c2))
  (at level 10, x name, c1 at level 100, c2 at level 200, only parsing).

Definition read {X} (f : world → X) : coro X := Do (λ w, w) (λ w, Ret (f w)).
Definition write (f : world → world) : coro unit := Do f (λ _, Ret tt).
Definition lift {X} (r : result X) : coro X :=
  match r with Ok x => Ret x | Exc e => Raise e end.

(** [for x in l: body x] *)
Fixpoint for_each {X} (l : list X) (body : X → coro unit) : coro unit :=
  match l with
  | [] => Ret tt
  | x :: l' => let* _ := body x in for_each l' body
  end.

(** Running one coroutine alone to its end, as [asyncio.run] does with a
    single task.  [None] is divergence. *)
Fixpoint run {A} (c : coro A) (w : world) : world * option (result A) :=
  match c with
  | Ret a => (w, Some (Ok a))
  | Raise e => (w, Some (Exc e))
  | Spin => (w, None)
  | Do f k | Await f k => run (k w) (f w)
  end.

(** ** The disk cache *)

(** [DISK_CACHE_EXPIRE = int(timedelta(days=3).total_seconds())] *)
Definition DISK_CACHE_EXPIRE : Z := 259200.

(** [DISK_CACHE.get(key=url)]: the stored value while its expiry time is in
    the future, [None] otherwise. *)
Definition DISK_CACHE_get (w : world) (url : string) : pyval :=
  match cache w !! url with
  | Some (value, expire_time) => if now w <? expire_time then value else VNone
  | None => VNone
  end.

(** [DISK_CACHE.set(key=url, value=value, expire=expire)] *)
Definition DISK_CACHE_set (url : string) (value : pyval) (expire : Z) (w : world) : world :=
  set_cache (λ c, <[url := (value, now w + expire)]> c) w.

(** The decorator [download_cached_by_url]: [inner url] for the wrapped
    coroutine function [func]. *)
Definition download_cached_by_url (func : string → coro pyval) (url : string) : coro pyval :=
  let* result := read (λ w, DISK_CACHE_get w url) in
  if negb (truthy result) then
    let* result := func url in
    let* _ := (if truthy result
               then write (DISK_CACHE_set url result DISK_CACHE_EXPIRE)
               else Ret tt) in
    Ret result
  else Ret result.

(** ** The retrying fetcher *)

(** The list [exceptions] built at the top of [download_with_retries]. *)
Definition exceptions_of (m : method) (extra_exceptions : list exn) : list exn :=
  [TimeoutError; ClientConnectionError; ClientResponseError; ServerDisconnectedError]
  ++ (if m is MJson then [JSONDecodeError] else [])
  ++ extra_exceptions.

(** [any([isinstance(e, exc) for exc in exceptions])] *)
Definition is_exc_valid (e : exn) (exceptions : list exn) : bool :=
  existsb (isinstance e) exceptions.
Arguments is_exc_valid : simpl never.
Arguments exceptions_of : simpl never.

(** What a request does to the world when it completes: it is logged and the
    clock advances by the time it took. *)
Definition fetch_step (E : env) (req : request) (w : world) : world :=
  set_now (λ t, t + Z.of_N (net E (length (fetched w)) req).1)
          (set_fetched (λ l, l ++ [req]) w).

(** One [session.get(url, timeout=timeout)] followed by
    [getattr(response, method)()]: the suspension point of a fetch. *)
Definition http_get (E : env) (req : request) : coro (result raw) :=
  Await (fetch_step E req) (λ w, Ret (net E (length (fetched w)) req).2).

Section download_with_retries.
Context (E : env) (url : string) (headers : option (list (string * string)))
        (timeout0 timeout_increment timeout_max retries_max : Z) (m : method)
        (extra_exceptions : list exn) (loader : option (raw → result pyval))
        (ret_default : pyval).

Definition the_loader : raw → result pyval :=
  match loader with Some f => f | None => λ x, Ok (VRaw x) end.

Definition the_request (timeout : Z) : request :=
  mkRequest url (default [] headers) m timeout.

(** The [while True] loop, unrolled [fuel] times. *)
Fixpoint retry_loop (fuel : nat) (timeout retry : Z) : coro pyval :=
  match fuel with
  | O => Spin
  | S fuel =>
      let* response := http_get E (the_request timeout) in
      match result_bind response the_loader with
      | Ok v => Ret v
      | Exc e =>
          if negb (is_exc_valid e (exceptions_of m extra_exceptions)) then Raise e
          else
            let timeout := Z.min (timeout + timeout_increment) timeout_max in
            if retry >? retries_max then
              let* _ := write (log_warning ("Failed to download URL " +:+ url)) in
              Ret ret_default
            else retry_loop fuel timeout (retry + 1)
      end
  end.

(** The body of [download_with_retries], below its decorator.  The loop
    leaves at the latest when [retry] has passed [retries_max], so
    [retries_max + 1] unrollings (one when [retries_max] is negative) are
    all it can use: see [download_with_retries_wrapped_returns]. *)
Definition download_with_retries_wrapped : coro pyval :=
  retry_loop (S (Z.to_nat retries_max)) timeout0 1.
End download_with_retries.

(** [download_with_retries] as the module exports it: the retry loop behind
    the cache. *)
Definition download_with_retries (E : env) (url : string)
    (headers : option (list (string * string)))
    (timeout timeout_increment timeout_max retries_max : Z) (m : method)
    (extra_exceptions : list exn) (loader : option (raw → result pyval))
    (ret_default : pyval) : coro pyval :=
  download_cached_by_url
    (λ url, download_with_retries_wrapped E url headers timeout timeout_increment
              timeout_max retries_max m extra_exceptions loader ret_default)
    url.

(** The timeouts of [n] consecutive attempts, the first with [timeout]. *)
Fixpoint timeouts (timeout_increment timeout_max : Z) (n : nat) (timeout : Z) : list Z :=
  match n with
  | O => []
  | S n => timeout :: timeouts timeout_increment timeout_max n
                        (Z.min (timeout + timeout_increment) timeout_max)
  end.

(** What the [n]-th request of the run yields once the loader has run. *)
Definition attempt (E : env) (loader : option (raw → result pyval)) (n : nat)
    (req : request) : result pyval :=
  result_bind (net E n req).2 (the_loader loader).

(** ** Python operations on decoded documents *)

#[global] Instance result_ret : MRet result := λ A a, Ok a.
#[global] Instance result_mbind : MBind result := λ A B k r, result_bind r k.

Fixpoint assoc (key : string) (l : list (string * json)) : option json :=
  match l with
  | [] => None
  | (k, v) :: l => if String.eqb k key then Some v else assoc key l
  end.

(** [d.get(key, dflt)]; only dicts have [get]. *)
Definition py_get (d : json) (key : string) (dflt : json) : result json :=
  match d with
  | JObj l => Ok (default dflt (assoc key l))
  | _ => Exc AttributeError
  end.

(** [d[key]] for a string key. *)
Definition py_getitem (d : json) (key : string) : result json :=
  match d with
  | JObj l => match assoc key l with Some v => Ok v | None => Exc KeyError end
  | _ => Exc TypeError
  end.

(** [d.values()] *)
Definition py_values (d : json) : result (list json) :=
  match d with
  | JObj l => Ok (l.*2)
  | _ => Exc AttributeError
  end.

Fixpoint chars (s : string) : list json :=
  match s with
  | EmptyString => []
  | String a s => JStr (String a EmptyString) :: chars s
  end.

(** [for x in j]: what iterating over [j] yields. *)
Definition py_iter (j : json) : result (list json) :=
  match j with
  | JArr l => Ok l
  | JObj l => Ok (JStr <$> l.*1)
  | JStr s => Ok (chars s)
  | _ => Exc TypeError
  end.

(** [sum(ls, [])] *)
Fixpoint py_sum (ls : list json) (acc : list json) : result (list json) :=
  match ls with
  | [] => Ok acc
  | JArr l :: ls => py_sum ls (acc ++ l)
  | _ :: _ => Exc TypeError
  end.

(** Calling a model class on the unpacked [j]: only a mapping can be unpacked. *)
Definition py_construct {X} (parse : json → result X) (j : json) : result X :=
  match j with
  | JObj _ => parse j
  | _ => Exc TypeError
  end.

Fixpoint result_mapM {X Y} (f : X → result Y) (l : list X) : result (list Y) :=
  match l with
  | [] => Ok []
  | x :: l => y ← f x; ys ← result_mapM f l; Ok (y :: ys)
  end.

(** [s.lstrip('/')] *)
Fixpoint lstrip_slash (s : string) : string :=
  match s with
  | String a s' => if Ascii.eqb a (Ascii.ascii_of_nat 47) then lstrip_slash s' else s
  | EmptyString => EmptyString
  end.

(** ** Access to the channel / program / image hierarchy

    The pipeline mutates the objects of the hierarchy in place, through the
    references its tasks hold.  The lists are never restructured once they
    are assigned, so a reference is the path of indices to the object. *)

Definition get_channel (w : world) (ci : nat) : Channel := channels w !!! ci.

Definition channel_programs (c : Channel) : list Program := default [] (programs c).

Definition get_program (w : world) (ci pi : nat) : Program :=
  channel_programs (get_channel w ci) !!! pi.

Definition program_images (p : Program) : list ProgramImage :=
  match _details p with Some d => images d | None => [] end.

Definition get_image (w : world) (ci pi ii : nat) : ProgramImage :=
  program_images (get_program w ci pi) !!! ii.

Definition with_programs (ps : option (list Program)) (c : Channel) : Channel :=
  mkChannel (tvguide_id c) (stream_id c) (channel_name c) (language c) ps.

Definition with_tags (t : list string) (p : Program) : Program :=
  mkProgram (program_id p) (start_timestamp p) (end_timestamp p) (program_name p)
            t (_details p) (_cast p).
Definition with_details (d : option ProgramDetails) (p : Program) : Program :=
  mkProgram (program_id p) (start_timestamp p) (end_timestamp p) (program_name p)
            (tags p) d (_cast p).
Definition with_cast (c : option ShowsCast) (p : Program) : Program :=
  mkProgram (program_id p) (start_timestamp p) (end_timestamp p) (program_name p)
            (tags p) (_details p) c.

Definition with_images (f : list ProgramImage → list ProgramImage) (d : ProgramDetails)
    : ProgramDetails :=
  mkDetails (mcoId d) (f (images d)).

Definition with_width (x : Z) (i : ProgramImage) : ProgramImage :=
  mkImage (image_url i) x (height i) (bucketPath i) (bucketType i).
Definition with_height (x : Z) (i : ProgramImage) : ProgramImage :=
  mkImage (image_url i) (width i) x (bucketPath i) (bucketType i).
Definition with_bucketPath (x : string) (i : ProgramImage) : ProgramImage :=
  mkImage (image_url i) (width i) (height i) x (bucketType i).
Definition with_bucketType (x : string) (i : ProgramImage) : ProgramImage :=
  mkImage (image_url i) (width i) (height i) (bucketPath i) x.

Definition set_channel (ci : nat) (f : Channel → Channel) : world → world :=
  set_channels (alter f ci).

Definition set_program (ci pi : nat) (f : Program → Program) : world → world :=
  set_channel ci (λ c, with_programs (alter f pi <$> programs c) c).

Definition set_image (ci pi ii : nat) (f : ProgramImage → ProgramImage) : world → world :=
  set_program ci pi (λ p, with_details (with_images (alter f ii) <$> _details p) p).

(** What the attributes hold once a fetched value has been assigned to them.
    A URL is built by one call site only, so a value that comes back from
    [download_with_retries], fetched or cached, has the shape of that call
    site's loader or is the call's [ret_default]. *)
Definition as_programs (v : pyval) : list Program :=
  match v with VPrograms l => l | _ => [] end.
Definition as_details (v : pyval) : option ProgramDetails :=
  match v with VDetails d => Some d | _ => None end.
Definition as_cast (v : pyval) : option ShowsCast :=
  match v with VCast c => Some c | _ => None end.

(** ** The download stages *)

Definition USER_AGENT : string :=
  "Mozilla/5.0 (Windows NT 10.0; Win64; x64) AppleWebKit/537.36 (KHTML, like Gecko) Chrome/102.0.5005.63 Safari/537.36".
Definition HEADERS : list (string * string) :=
  [("Referer", "http://123tv.live/"); ("User-Agent", USER_AGENT)]%string.

(** [not channel['tvguide_id']]: the id is [None] or the empty string. *)
Definition no_tvguide_id (c : Channel) : bool :=
  match tvguide_id c with
  | None => true
  | Some s => String.eqb s ""
  end.

Section stages.
Context (E : env).

(** The [loader] of [download_programs]. *)
Definition programs_loader (response : raw) : result pyval :=
  match response with
  | RJson response =>
      items ← py_get response "items" (JObj []);
      lists ← py_values items;
      programs ← py_sum lists [];
      ps ← result_mapM (py_construct (parse_program E)) programs;
      Ok (VPrograms ps)
  | RBytes _ => Exc AttributeError
  end.

Definition programs_url (id : string) (time : Z) : string :=
  "http://123tv.live/epg/json/" +:+ id +:+ ".json?_=" +:+ pretty time.

Definition download_programs (ci : nat) : coro unit :=
  let* channel := read (λ w, get_channel w ci) in
  if no_tvguide_id channel then
    write (set_channel ci (with_programs (Some [])))
  else
    let* time := read now in
    let url := programs_url (default "" (tvguide_id channel)) time in
    let* v := download_with_retries E url (Some HEADERS) 1 1 10 10 MJson
                [ValidationError; AttributeError] (Some programs_loader)
                (VPrograms []) in
    write (set_channel ci (with_programs (Some (as_programs v)))).

(** The [loader] of [download_program_detail]. *)
Definition detail_loader (response : raw) : result pyval :=
  match response with
  | RJson response =>
      data ← py_getitem response "data";
      item ← py_getitem data "item";
      d ← py_construct (parse_details E) item;
      Ok (VDetails d)
  | RBytes _ => Exc TypeError
  end.

Definition tvguide_headers : list (string * string) :=
  [("Referer", "https://google.com"); ("User-Agent", USER_AGENT)]%string.

Definition detail_url (id : Z) : string :=
  "https://cmg-prod.apigee.net/v1/xapi/tvschedules/tvguide/programdetails/"
  +:+ pretty id +:+ "/web".

Definition download_program_detail (ci pi : nat) : coro unit :=
  let* program := read (λ w, get_program w ci pi) in
  let* v := download_with_retries E (detail_url (program_id program))
              (Some tvguide_headers) 1 1 10 10 MJson [ValidationError; KeyError]
              (Some detail_loader) VNone in
  write (set_program ci pi (with_details (as_details v))).

(** The loop of the cast [loader] over the components. *)
Fixpoint find_cast (components : list json) : result ShowsCast :=
  match components with
  | [] => Ok (mkCast "0" [])
  | component :: components =>
      meta ← py_get component "meta" (JObj []);
      name ← py_get meta "componentName" JNull;
      match name with
      | JStr "tv-object-cast-and-crew" =>
          cast_data ← py_get component "data" (JObj []);
          if json_truthy cast_data then py_construct (parse_cast E) cast_data
          else find_cast components
      | _ => find_cast components
      end
  end.

Definition cast_loader (response : raw) : result pyval :=
  match response with
  | RJson response =>
      cs ← py_get response "components" (JArr []);
      components ← py_iter cs;
      c ← find_cast components;
      Ok (VCast c)
  | RBytes _ => Exc AttributeError
  end.

Definition cast_url (mco : Z) : string :=
  "https://cmg-prod.apigee.net/v1/xapi/composer/tvguide/pages/shows-cast/"
  +:+ pretty mco +:+ "/web?contentOnly=true".

(** [program._details and program._details.mcoId] *)
Definition cast_id_of (p : Program) : option Z :=
  match _details p with
  | Some d => match mcoId d with
              | Some mco => if mco =? 0 then None else Some mco
              | None => None
              end
  | None => None
  end.

Definition download_program_cast (ci pi : nat) : coro unit :=
  let* program := read (λ w, get_program w ci pi) in
  match cast_id_of program with
  | Some mco =>
      let* v := download_with_retries E (cast_url mco) (Some tvguide_headers)
                  1 1 10 10 MJson [ValidationError; KeyError; AttributeError]
                  (Some cast_loader) VNone in
      write (set_program ci pi (with_cast (as_cast v)))
  | None => Ret tt
  end.

(** The [loader] of [download_program_images]: the resize. *)
Definition image_loader (images_size images_quality : Z) (response : raw) : result pyval :=
  match response with
  | RBytes b => b' ← thumbnail E images_size images_quality b; Ok (VBytes b')
  | RJson _ => Exc TypeError
  end.

(** [io.BytesIO(img_bytes)]: [None] gives the empty buffer. *)
Definition bytes_io (v : pyval) : result (list Byte.byte) :=
  match v with
  | VBytes b => Ok b
  | VRaw (RBytes b) => Ok b
  | VNone => Ok []
  | _ => Exc TypeError
  end.

Definition image_warning (url : string) : string :=
  "Something bad happened during working with image (URL: " +:+ url +:+ ")".

(** The body of the [try] for the image [ii] of the program. *)
Definition process_image (ci pi ii : nat) (images_size images_quality : Z)
    (base_url : string) : coro unit :=
  let* image := read (λ w, get_image w ci pi ii) in
  let* img_bytes := download_with_retries E (image_url image) None 15 10 120 10
                      MRead [] (Some (image_loader images_size images_quality))
                      VNone in
  let* image := read (λ w, get_image w ci pi ii) in
  let img_path := lstrip_slash (bucketPath image) in
  let* iobytes := lift (bytes_io img_bytes) in
  let* _ := write (λ w, emit (EvWrite img_path)
                          (set_posters (λ fs, <[img_path := iobytes]> fs) w)) in
  let* img := lift (image_size E iobytes) in
  let* _ := write (set_image ci pi ii (with_width img.1)) in
  let* _ := write (set_image ci pi ii (with_height img.2)) in
  let* image := read (λ w, get_image w ci pi ii) in
  let* new_path := lift (poster_url E base_url (bucketPath image)) in
  let* _ := write (set_image ci pi ii (with_bucketPath new_path)) in
  write (set_image ci pi ii (with_bucketType "local")).

(** One round of [for image in program._details.images]: the [try] and its
    [except Exception], which logs. *)
Definition guarded_image (ci pi ii : nat) (images_size images_quality : Z)
    (base_url : string) : coro unit :=
  try_except (process_image ci pi ii images_size images_quality base_url)
    (λ e, let* image := read (λ w, get_image w ci pi ii) in
          write (log_warning (image_warning (image_url image)))).

Definition download_program_images (ci pi : nat) (images_size images_quality : Z)
    (base_url : string) : coro unit :=
  let* program := read (λ w, get_program w ci pi) in
  match _details program with
  | None => Ret tt
  | Some details =>
      for_each (seq 0 (length (images details)))
        (λ ii, guarded_image ci pi ii images_size images_quality base_url)
  end.

(** The schedule fields are integers in the guide's documents. *)
Definition as_int (j : json) : result Z :=
  match j with
  | JNum z => Ok z
  | _ => Exc TypeError
  end.

(** The dict comprehension of the tags [loader]; a later entry with the
    same key replaces an earlier one. *)
Fixpoint programs_and_attrs (programs : list json) (acc : gmap (Z * Z) Z)
    : result (gmap (Z * Z) Z) :=
  match programs with
  | [] => Ok acc
  | x :: programs =>
      attrib ← py_getitem x "airingAttrib";
      if negb (json_truthy attrib) then programs_and_attrs programs acc
      else
        id ← py_getitem x "programId";
        if negb (json_truthy id) then programs_and_attrs programs acc
        else
          start ← py_getitem x "startTime";
          k1 ← as_int id;
          k2 ← as_int start;
          v ← as_int attrib;
          programs_and_attrs programs (<[(k1, k2) := v]> acc)
  end.

Definition tags_loader (response : raw) : result pyval :=
  match response with
  | RJson response =>
      data ← py_getitem response "data";
      items ← py_getitem data "items";
      xs ← py_iter items;
      lists ← result_mapM (λ x, py_getitem x "programSchedules") xs;
      programs ← py_sum lists [];
      d ← programs_and_attrs programs ∅;
      Ok (VTags d)
  | RBytes _ => Exc TypeError
  end.

Definition tags_url (start_ts : Z) : string :=
  "https://cmg-prod.apigee.net/v1/xapi/tvschedules/tvguide/9100001138/web?start="
  +:+ pretty start_ts +:+ "&duration=" +:+ pretty (60 * 48).

Definition tags_headers : list (string * string) :=
  [("Referer", "https://www.tvguide.com/"); ("User-Agent", USER_AGENT)]%string.

(** [{k for k, v in data.items() if v & mask}] *)
Definition flagged (mask : Z) (data : gmap (Z * Z) Z) : gset (Z * Z) :=
  dom (filter (λ kv, Z.land kv.2 mask ≠ 0) data).

(** The two [if]s of the innermost loop of [download_program_tags]. *)
Definition tag_program (programs_new programs_live : gset (Z * Z)) (p : Program) : Program :=
  let key := (program_id p, start_timestamp p) in
  let p := if decide (key ∈ programs_new) then with_tags (tags p ++ ["new"%string]) p else p in
  if decide (key ∈ programs_live) then with_tags (tags p ++ ["live"%string]) p else p.

(** One round of [for channel in channels]: the programs of the channel
    are tagged in place. *)
Definition tag_channel (programs_new programs_live : gset (Z * Z)) (ci : nat) : coro unit :=
  let* channel := read (λ w, get_channel w ci) in
  match programs channel with
  | None => Raise KeyError
  | Some _ =>
      write (set_channel ci (λ c,
               with_programs (fmap (M:=list) (tag_program programs_new programs_live)
                               <$> programs c) c))
  end.

(** [datetime.utcnow()] is naive, and [timestamp()] reads it as local time. *)
Definition download_program_tags : coro unit :=
  let* time := read now in
  let start_ts := time - 30 * 60 - utcoffset E in
  let* data := download_with_retries E (tags_url start_ts) (Some tags_headers)
                 30 5 60 10 MJson [] (Some tags_loader) VNone in
  if truthy data then
    match data with
    | VTags data =>
        let programs_new := flagged 4 data in
        let programs_live := flagged 1 data in
        let* n := read (λ w, length (channels w)) in
        for_each (seq 0 n) (tag_channel programs_new programs_live)
    | _ => Raise AttributeError
    end
  else Ret tt.
End stages.

(** ** The concurrency gate *)

(** The state of one task of a batch: queued on the semaphore, inside the
    semaphore and suspended on an await, or returned. *)
Inductive slot (A : Type) : Type :=
| Waiting (c : coro A)
| Running (c : coro A)
| Finished (a : A).
Arguments Waiting {A} c.
Arguments Running {A} c.
Arguments Finished {A} a.

(** A coroutine runs without interruption up to its next suspension point. *)
Fixpoint advance {A} (c : coro A) (w : world) : world * coro A :=
  match c with
  | Do f k => advance (k w) (f w)
  | _ => (w, c)
  end.

(** A suspended coroutine is resumed when what it awaits completes. *)
Definition resume {A} (c : coro A) (w : world) : world * coro A :=
  match c with
  | Await f k => advance (k w) (f w)
  | _ => advance c w
  end.

Definition is_running {A} (s : task_id * slot A) : bool :=
  match s.2 with Running _ => true | _ => false end.

Definition in_flight {A} (slots : list (task_id * slot A)) : nat :=
  length (filter (λ s, is_running s = true) slots).

(** The tasks that can make a step, with their position: those suspended
    inside the semaphore. *)
Fixpoint running_from {A} (i : nat) (slots : list (task_id * slot A))
    : list (nat * task_id * coro A) :=
  match slots with
  | [] => []
  | (t, Running c) :: slots => (i, t, c) :: running_from (S i) slots
  | _ :: slots => running_from (S i) slots
  end.

(** The head of the semaphore's queue. *)
Fixpoint first_waiting_from {A} (i : nat) (slots : list (task_id * slot A))
    : option (nat * task_id * coro A) :=
  match slots with
  | [] => None
  | (t, Waiting c) :: _ => Some (i, t, c)
  | _ :: slots => first_waiting_from (S i) slots
  end.

(** The results in task order, when every task has returned. *)
Fixpoint results {A} (slots : list (task_id * slot A)) : option (list A) :=
  match slots with
  | [] => Some []
  | (_, Finished a) :: slots => cons a <$> results slots
  | _ :: _ => None
  end.

(** What the event loop can do next: let the head of the queue into the
    semaphore when fewer than [n] tasks are inside ([true]), or resume one of
    the suspended tasks ([false]). *)
Definition options {A} (n : nat) (slots : list (task_id * slot A))
    : list (bool * (nat * task_id * coro A)) :=
  (if decide (in_flight slots < n)%nat
   then match first_waiting_from 0 slots with
        | Some x => [(true, x)]
        | None => []
        end
   else [])
  ++ ((λ x, (false, x)) <$> running_from 0 slots).

(** The computations of the driver: they end with a world and a value or an
    exception, or do not end ([None]). *)
Definition M (A : Type) : Type := world → world * option (result A).

Definition m_ret {A} (a : A) : M A := λ w, (w, Some (Ok a)).

Definition and_then {A B} (m : M A) (k : A → M B) : M B :=
  λ w, match m w with
       | (w', Some (Ok a)) => k a w'
       | (w', Some (Exc e)) => (w', Some (Exc e))
       | (w', None) => (w', None)
       end.

Notation "'do*' x ':=' m 'in' k" := (and_then m (λ x, k))
  (at level 10, x name, m at level 100, k at level 200, only parsing).

Fixpoint for_each_M {X} (l : list X) (body : X → M unit) : M unit :=
  match l with
  | [] => m_ret tt
  | x :: l' => do* _ := body x in for_each_M l' body
  end.

(** The event loop while [gather] is awaited.  Each round takes one of the
    [options], chosen by the schedule [sched]; a task that raises ends the
    gather with its exception, the other tasks are left where they are.
    Without options the batch is over when every task has returned, and is
    stuck otherwise (waiting tasks behind a semaphore of zero). *)
Fixpoint gather_loop {A} (fuel : nat) (sched : nat → nat) (n : nat)
    (slots : list (task_id * slot A)) (w : world) : world * option (result (list A)) :=
  match fuel with
  | O => (w, None)
  | S fuel =>
      match options n slots with
      | [] => (w, match results slots with Some l => Some (Ok l) | None => None end)
      | o :: os =>
          let '(starts, (i, t, c)) := nth (sched (ticks w) mod length (o :: os)) (o :: os) o in
          let w := set_ticks S w in
          let wc := if starts : bool then advance c (emit (EvStart t) w) else resume c w in
          match wc.2 with
          | Ret a =>
              gather_loop fuel sched n (<[i := (t, Finished a)]> slots) (emit (EvFinish t) wc.1)
          | Raise e => (emit (EvRaise t e) wc.1, Some (Exc e))
          | Await _ _ => gather_loop fuel sched n (<[i := (t, Running wc.2)]> slots) wc.1
          | Spin | Do _ _ => (wc.1, None)
          end
      end
  end.

(** [gather_with_concurrency(n, *tasks)]: every task behind one semaphore of
    [n].  The progress bar ([show_progress], [progress_title]) changes
    nothing of what is modelled and is left out. *)
Definition gather_with_concurrency {A} (fuel : nat) (sched : nat → nat) (n : nat)
    (tasks : list (task_id * coro A)) : M (list A) :=
  gather_loop fuel sched n ((λ tc, (tc.1, Waiting tc.2)) <$> tasks).

(** ** The driver *)

(** [await c] in the driver, for a coroutine that is not handed to a gather:
    it runs alone. *)
Definition await_task {A} (t : task_id) (c : coro A) : M A :=
  λ w, match run c (emit (EvStart t) w) with
       | (w', Some (Ok a)) => (emit (EvFinish t) w', Some (Ok a))
       | (w', Some (Exc e)) => (emit (EvRaise t e) w', Some (Exc e))
       | (w', None) => (w', None)
       end.

Section driver.
Context (E : env) (fuel : nat) (sched : nat → nat).

(** The batch of one channel: one task per program of the channel. *)
Definition channel_batch (parallel : nat) (task : nat → nat → task_id * coro unit)
    (ci : nat) : M unit :=
  λ w, match programs (get_channel w ci) with
       | None => (w, Some (Exc KeyError))
       | Some ps =>
           (do* _ := gather_with_concurrency fuel sched parallel
                       (imap (λ pi _, task ci pi) ps) in
            m_ret tt) w
       end.

(** One of the three loops [for channel in channels]. *)
Definition per_channel (parallel : nat) (task : nat → nat → task_id * coro unit) : M unit :=
  λ w, for_each_M (seq 0 (length (channels w))) (channel_batch parallel task) w.

(** What [download_and_make_epg] does once the programs of the channels are
    downloaded: the stages after FetchPrograms. *)
Definition enrich_and_emit (parallel : nat) (create_archive : bool)
    (images_size images_quality : Z) (base_url : string) : M unit :=
  (* Download program details from TVGUIDE *)
  do* _ := per_channel parallel
             (λ ci pi, (TDetail ci pi, download_program_detail E ci pi)) in
  (* Download program cast from TVGUIDE *)
  do* _ := per_channel parallel
             (λ ci pi, (TCast ci pi, download_program_cast E ci pi)) in
  (* shutil.rmtree(root_dir() / 'images' / 'posters', ignore_errors=True) *)
  do* _ := run (write (λ w, emit EvRmtree (set_posters (λ _, ∅) w))) in
  do* _ := per_channel parallel
             (λ ci pi, (TImages ci pi,
                        download_program_images E ci pi images_size images_quality base_url)) in
  (* await download_program_tags(channels) *)
  do* _ := await_task TTags (download_program_tags E) in
  (* make_xmltv(channels, filepath, base_url, icons_for_light_bg) *)
  do* _ := run (write (λ w, emit EvEmit (set_xmltv (Some (channels w)) w))) in
  if create_archive then run (write (set_archive true)) else m_ret tt.

(** What [download_and_make_epg] does once the channels are loaded. *)
Definition download_and_make_epg_loaded (parallel : nat) (create_archive : bool)
    (images_size images_quality : Z) (base_url : string) : M unit :=
  λ w,
  ((* Download programs per each channel from USTVGO *)
   do* _ := gather_with_concurrency fuel sched parallel
              (imap (λ ci _, (TPrograms ci, download_programs E ci)) (channels w)) in
   enrich_and_emit parallel create_archive images_size images_quality base_url) w.

(** [download_and_make_epg]; [catalog] is what [load_dict('channels.json')]
    returns. *)
Definition download_and_make_epg (catalog : list Channel) (parallel : nat)
    (create_archive : bool) (images_size images_quality : Z) (base_url : string) : M unit :=
  do* _ := run (write (set_channels (λ _, catalog))) in
  download_and_make_epg_loaded parallel create_archive images_size images_quality base_url.
End driver.

(** ** Notions used in the statements *)

(** The world after the requests [reqs] have completed one after the other. *)
Definition after_requests (E : env) (reqs : list request) (w : world) : world :=
  foldl (λ w r, fetch_step E r w) w reqs.

(** Every value the cache holds is truthy. *)
Definition cache_truthy (w : world) : Prop :=
  ∀ url value expire_time, cache w !! url = Some (value, expire_time) → truthy value = true.

(** The clock moves on by [d] seconds while nothing else happens. *)
Definition later (d : Z) (w : world) : world := set_now (λ t, t + d) w.

(** The program at position [pi] of the channel at position [ci], if any. *)
Definition program_at (w : world) (ci pi : nat) : option Program :=
  c ← channels w !! ci; ps ← programs c; ps !! pi.

(** A coroutine that never spins, whatever the worlds it is resumed in. *)
Fixpoint terminates {A} (c : coro A) : Prop :=
  match c with
  | Spin => False
  | Do _ k | Await _ k => ∀ w, terminates (k w)
  | _ => True
  end.

(** A coroutine that ends by returning, whatever the worlds it is resumed
    in: it neither raises nor spins. *)
Fixpoint returns {A} (c : coro A) : Prop :=
  match c with
  | Ret _ => True
  | Raise _ | Spin => False
  | Do _ k | Await _ k => ∀ w, returns (k w)
  end.

(** Every atomic step of the coroutine, taken in a world where [I] holds,
    takes the world to one that [R] relates to it. *)
Fixpoint safe {A} (I : world → Prop) (R : world → world → Prop) (c : coro A) : Prop :=
  match c with
  | Do f k | Await f k => ∀ w, I w → R w (f w) ∧ safe I R (k w)
  | _ => True
  end.

(** [R] is closed under sequencing and keeps [I]. *)
Record steps (I : world → Prop) (R : world → world → Prop) : Prop := {
  steps_refl : ∀ w, R w w;
  steps_trans : ∀ w1 w2 w3, R w1 w2 → R w2 w3 → R w1 w3;
  steps_inv : ∀ w w', I w → R w w' → I w' }.

(** The steps of [download_with_retries] are steps of [R]. *)
Record admits_fetching (E : env) (R : world → world → Prop) : Prop := {
  admits_fetch : ∀ req w, R w (fetch_step E req w);
  admits_warning : ∀ msg w, R w (log_warning msg w);
  admits_cache : ∀ url v w,
    truthy v = true → R w (DISK_CACHE_set url v DISK_CACHE_EXPIRE w) }.


Definition always : world → Prop := λ _, True.

Definition slot_safe {A} (I : world → Prop) (R : world → world → Prop) (s : slot A) : Prop :=
  match s with
  | Waiting c | Running c => safe I R c
  | Finished _ => True
  end.

(** The events of the task [t] are steps of [R]. *)
Definition task_ok (R : world → world → Prop) (t : task_id) : Prop :=
  ∀ w, R w (emit (EvStart t) w) ∧ R w (emit (EvFinish t) w)
       ∧ ∀ e, R w (emit (EvRaise t e) w).

(** From a world where [I] holds, the computation ends in a world that [R]
    relates to it. *)
Definition respects {A} (I : world → Prop) (R : world → world → Prop) (m : M A) : Prop :=
  ∀ w, I w → R w (m w).1.

(** What it takes for every step of [download_and_make_epg], once the
    channels are loaded, to be a step of [R]: the steps of the tasks the
    driver creates (for the programs a channel has when its batch is made),
    their events, and the driver's own steps. *)
Record pipeline_ok (E : env) (I : world → Prop) (R : world → world → Prop)
    (images_size images_quality : Z) (base_url : string) : Prop := {
  pk_steps : steps I R;
  pk_tick : ∀ w, R w (set_ticks S w);
  pk_programs : ∀ ci, safe I R (download_programs E ci) ∧ task_ok R (TPrograms ci);
  pk_detail : ∀ w ci pi,
    I w → (pi < length (channel_programs (get_channel w ci)))%nat →
    safe I R (download_program_detail E ci pi) ∧ task_ok R (TDetail ci pi);
  pk_cast : ∀ w ci pi,
    I w → (pi < length (channel_programs (get_channel w ci)))%nat →
    safe I R (download_program_cast E ci pi) ∧ task_ok R (TCast ci pi);
  pk_images : ∀ w ci pi,
    I w → (pi < length (channel_programs (get_channel w ci)))%nat →
    safe I R (download_program_images E ci pi images_size images_quality base_url)
    ∧ task_ok R (TImages ci pi);
  pk_tags : safe I R (download_program_tags E) ∧ task_ok R TTags;
  pk_rmtree : ∀ w, I w → R w (emit EvRmtree (set_posters (λ _, ∅) w));
  pk_emit : ∀ w, I w → R w (emit EvEmit (set_xmltv (Some (channels w)) w));
  pk_archive : ∀ w, I w → R w (set_archive true w) }.

(** ** The order of the stages *)

(** The place of a task in the order of the run: FetchPrograms, FetchDetails,
    FetchCast, (the removal of the posters,) FetchImages, FetchTags,
    (Emit). *)
Definition stage_of (t : task_id) : nat :=
  match t with
  | TPrograms _ => 1
  | TDetail _ _ => 2
  | TCast _ _ => 3
  | TImages _ _ => 5
  | TTags => 6
  end.

Definition phase (ev : event) : nat :=
  match ev with
  | EvStart t | EvFinish t | EvRaise t _ => stage_of t
  | EvRmtree => 4
  | EvWrite _ => 5
  | EvEmit => 7
  end.

(** The events a task emits itself: none of the gate's. *)
Definition plain (ev : event) : Prop :=
  match ev with
  | EvStart _ | EvFinish _ | EvRaise _ _ => False
  | _ => True
  end.

(** The steps of a task of stage [s], as far as the trace goes. *)
Definition quiet (s : nat) (w w' : world) : Prop :=
  ∃ seg, trace w' = trace w ++ seg ∧ Forall (λ ev, phase ev = s ∧ plain ev) seg.

Definition no_raise (seg : list event) : Prop := ∀ t e, EvRaise t e ∉ seg.

(** The phases never go down along the trace. *)
Definition sorted (seg : list event) : Prop :=
  ∀ i j ev ev', seg !! i = Some ev → seg !! j = Some ev' → (i ≤ j)%nat →
                (phase ev ≤ phase ev')%nat.

(** What phase [k] has achieved in [seg] when it is over: every task of the
    phase that started has returned; the posters are removed (phase 4); every
    one of the [N] channels has had its FetchPrograms task return (phase 1). *)
Definition achieved (N : nat) (k : nat) (seg : list event) : Prop :=
  (∀ t, stage_of t = k → EvStart t ∈ seg → EvFinish t ∈ seg)
  ∧ (k = 4%nat → EvRmtree ∈ seg)
  ∧ (k = 1%nat → ∀ ci, (ci < N)%nat → EvFinish (TPrograms ci) ∈ seg).

(** The trace of the computation [m] from [w]: its events are of the phases
    [lo] to [hi], in order; an event of a phase is there only when the
    earlier phases are over; when [m] returns, all its phases are over; and
    an [EvRaise] is there only as the last event, when [m] raises what the
    task raised. *)
Definition staged {A} (N lo hi : nat) (m : M A) (w : world) : Prop :=
  ∃ seg, trace (m w).1 = trace w ++ seg
    ∧ Forall (λ ev, (lo ≤ phase ev ≤ hi)%nat) seg
    ∧ sorted seg
    ∧ (∀ ev k, ev ∈ seg → (lo ≤ k < phase ev)%nat → achieved N k seg)
    ∧ match (m w).2 with
      | Some (Ok _) => (∀ k, (lo ≤ k ≤ hi)%nat → achieved N k seg) ∧ no_raise seg
      | Some (Exc e) =>
          no_raise seg ∨ ∃ t seg', seg = seg' ++ [EvRaise t e] ∧ no_raise seg'
      | None => no_raise seg
      end.

(** What every step of a run respects, from the world [w] to a later world
    [w']: the trace grows; a poster that is there at the end was there at
    the start, if the posters were not removed in between, or was written in
    between; and the guide is not emitted unless [EvEmit] is in the trace. *)
Definition run_rel (w w' : world) : Prop :=
  ∃ seg, trace w' = trace w ++ seg
    ∧ (∀ path, is_Some (posters w' !! path) →
         (is_Some (posters w !! path) ∧ EvRmtree ∉ seg) ∨ EvWrite path ∈ seg)
    ∧ (EvEmit ∉ seg → xmltv w' = xmltv w).

(** A channel without a guide id and without programs. *)
Definition unlisted (c : Channel) : Prop :=
  no_tvguide_id c = true ∧ channel_programs c = [].

(** The channel [ci] has no guide id and no programs. *)
Definition skipped (ci : nat) (w : world) : Prop := unlisted (get_channel w ci).

(** No task of a later stage starts for a program of the channel [ci]. *)
Definition no_task_for (ci : nat) (seg : list event) : Prop :=
  ∀ pi, (EvStart (TDetail ci pi) ∉ seg) ∧ (EvStart (TCast ci pi) ∉ seg)
        ∧ (EvStart (TImages ci pi) ∉ seg).

Definition skip_rel (ci : nat) (w w' : world) : Prop :=
  (skipped ci w → skipped ci w')
  ∧ ∃ seg, trace w' = trace w ++ seg ∧ no_task_for ci seg.

(** The coroutine does not return without a step, and the step after which
    it returns, taken in a world where [I] holds, leaves a world where [Q]
    holds. *)
Fixpoint ensures {A} (I Q : world → Prop) (c : coro A) : Prop :=
  match c with
  | Ret _ => False
  | Raise _ | Spin => True
  | Do f k | Await f k =>
      ∀ w, I w → match k w with Ret _ => Q (f w) | _ => ensures I Q (k w) end
  end.

(** What a task of a batch ensures, by where it is. *)
Definition slot_ensures {A} (I Q : world → Prop) (s : slot A) (w : world) : Prop :=
  match s with
  | Waiting c | Running c => ensures I Q c
  | Finished _ => Q w
  end.

(** The channel [ci] has no guide id. *)
Definition without_guide (ci : nat) (w : world) : Prop :=
  no_tvguide_id (get_channel w ci) = true.

(** The steps of the FetchPrograms stage, seen from the channel [ci]. *)
Definition listing_rel (ci : nat) (w w' : world) : Prop :=
  (without_guide ci w → without_guide ci w') ∧ skip_rel ci w w'.

(** The number of programs of the channel [ci]. *)
Definition program_count (w : world) (ci : nat) : nat :=
  length (channel_programs (get_channel w ci)).

(** The steps that keep the trace quiet, for a task of stage [s], and leave
    every channel with the programs it has, in number. *)
Definition enrich_rel (s : nat) (w w' : world) : Prop :=
  quiet s w w' ∧ ∀ ci, program_count w' ci = program_count w ci.

(** The steps of the gate around tasks that take steps of [enrich_rel]. *)
Definition batch_rel (w w' : world) : Prop :=
  ∀ ci, program_count w' ci = program_count w ci.

(** The stage [m], whose tasks are named by [t], returns only once the task
    of every program that the channels have when it begins has returned. *)
Definition completes_every_program (m : M unit) (t : nat → nat → task_id) : Prop :=
  ∀ w, (m w).2 = Some (Ok tt) →
  ∃ seg, trace (m w).1 = trace w ++ seg
    ∧ ∀ ci pi, is_Some (program_at w ci pi) → EvFinish (t ci pi) ∈ seg.

(** ** A small guide, for the examples *)

Module Demo.

Definition field_int (j : json) (key : string) : result Z :=
  x ← py_getitem j key; as_int x.

Definition field_str (j : json) (key : string) : result string :=
  x ← py_getitem j key;
  match x with JStr s => Ok s | _ => Exc ValidationError end.

Definition parse_program (j : json) : result Program :=
  match field_int j "id", field_int j "start_timestamp", field_int j "end_timestamp",
        field_str j "name" with
  | Ok i, Ok s, Ok e, Ok n => Ok (mkProgram i s e n [] None None)
  | _, _, _, _ => Exc ValidationError
  end.

Definition parse_image (j : json) : result ProgramImage :=
  match field_str j "url", field_int j "width", field_int j "height",
        field_str j "bucketPath", field_str j "bucketType" with
  | Ok u, Ok w, Ok h, Ok p, Ok t => Ok (mkImage u w h p t)
  | _, _, _, _, _ => Exc ValidationError
  end.

Definition parse_details (j : json) : result ProgramDetails :=
  match py_getitem j "mcoId", py_getitem j "images" with
  | Ok m, Ok (JArr l) =>
      match result_mapM parse_image l with
      | Ok imgs => Ok (mkDetails (match m with JNum z => Some z | _ => None end) imgs)
      | Exc _ => Exc ValidationError
      end
  | _, _ => Exc ValidationError
  end.

Definition parse_cast (j : json) : result ShowsCast :=
  match field_str j "id", py_getitem j "items" with
  | Ok i, Ok (JArr l) => Ok (mkCast i l)
  | _, _ => Exc ValidationError
  end.

(** A resize that keeps the bytes, and images whose first two bytes are
    their width and height. *)
Definition thumbnail (size quality : Z) (b : list Byte.byte) : result (list Byte.byte) :=
  match b with [] => Exc UnidentifiedImageError | _ => Ok b end.

Definition image_size (b : list Byte.byte) : result (Z * Z) :=
  match b with
  | x :: y :: _ => Ok (Z.of_N (Byte.to_N x), Z.of_N (Byte.to_N y))
  | _ => Exc UnidentifiedImageError
  end.

(** [furl] refuses a URL whose host opens a bracket it does not close. *)
Definition poster_url (base_url path : string) : result string :=
  if String.eqb base_url "http://[::1" then Exc ValueError
  else Ok (base_url +:+ "/images/posters" +:+ path).

Definition program_doc (i start : Z) (n : string) : json :=
  JObj [("id", JNum i); ("start_timestamp", JNum start);
        ("end_timestamp", JNum (start + 1800)); ("name", JStr n)]%string.

(** Two programs, 42 at 1000 and 42 again at 2000. *)
Definition programs_doc : json :=
  JObj [("items", JObj [("day1", JArr [program_doc 42 1000 "News"]);
                        ("day2", JArr [program_doc 42 2000 "News"])])]%string.

Definition poster : list Byte.byte := [Byte.x10; Byte.x09; Byte.xff].

Definition detail_doc : json :=
  JObj [("data", JObj [("item", JObj [
    ("mcoId", JNum 7);
    ("images", JArr [JObj [("url", JStr "https://img/42.jpg"); ("width", JNum 1920);
                           ("height", JNum 1080); ("bucketPath", JStr "/a/42.jpg");
                           ("bucketType", JStr "remote")]])])])]%string.

Definition cast_doc : json :=
  JObj [("components", JArr [
    JObj [("meta", JObj [("componentName", JStr "tv-object-cast-and-crew")]);
          ("data", JObj [("id", JStr "7"); ("items", JArr [])])]])]%string.

Definition airing (i start attrib : Z) : json :=
  JObj [("programId", JNum i); ("startTime", JNum start);
        ("airingAttrib", JNum attrib)]%string.

(** The guide flags program 42 at 1000 with 0b101. *)
Definition tags_doc : json :=
  JObj [("data", JObj [("items", JArr [
    JObj [("programSchedules", JArr [airing 42 1000 5; airing 43 1000 0])]])])]%string.

Definition serve (url : string) : result raw :=
  if String.prefix "http://123tv.live/epg/json/" url then Ok (RJson programs_doc)
  else if String.prefix "https://cmg-prod.apigee.net/v1/xapi/tvschedules/tvguide/programdetails/" url
  then Ok (RJson detail_doc)
  else if String.prefix "https://cmg-prod.apigee.net/v1/xapi/composer/" url
  then Ok (RJson cast_doc)
  else if String.prefix "https://cmg-prod.apigee.net/v1/xapi/tvschedules/tvguide/9100001138/" url
  then Ok (RJson tags_doc)
  else if String.prefix "https://img/" url then Ok (RBytes poster)
  else Exc ClientResponseError.

(** Every request is answered in one second. *)
Definition env_of (net : nat → request → N * result raw) : env :=
  mkEnv net parse_program parse_details parse_cast thumbnail image_size poster_url 0.

Definition E : env := env_of (λ _ req, (1%N, serve (req_url req))).

Definition w0 : world := mkWorld ∅ 1700000000 [] [] ∅ [] [] 0 None false.

Definition catalog : list Channel :=
  [mkChannel (Some "abc") "abc" "ABC" "en" None;
   mkChannel None "local" "Local" "en" None]%string.
End Demo.

(** A guide that answers every request with an empty document, and one that
    never answers in time. *)
Definition Eempty : env := Demo.env_of (λ _ _, (1%N, Ok (RJson (JObj [])))).
Definition Edown : env := Demo.env_of (λ _ _, (1%N, Exc TimeoutError)).

(** The world once the programs of the [Demo] channel are known: program 42
    airs at 1000 and again at 2000. *)
Definition w_programs : world :=
  set_channels (λ _, [mkChannel (Some "abc") "abc" "ABC" "en"
                        (Some [mkProgram 42 1000 2800 "News" [] None None;
                               mkProgram 42 2000 3800 "News" [] None None])]) Demo.w0.




(** * Properties *)

(** ** Running coroutines *)

Lemma run_bind {A B} (c : coro A) (k : A → coro B) (w : world) :
  run (bind c k) w =
  match run c w with
  | (w', Some (Ok a)) => run (k a) w'
  | (w', Some (Exc e)) => (w', Some (Exc e))
  | (w', None) => (w', None)
  end.
Proof.
  revert w. induction c as [a|e| |f k' IH|f k' IH]; intros w; simpl; auto.
Qed.


Lemma run_read {X} (f : world → X) (w : world) : run (read f) w = (w, Some (Ok (f w))).
Proof. reflexivity. Qed.

Lemma run_write (f : world → world) (w : world) : run (write f) w = (f w, Some (Ok tt)).
Proof. reflexivity. Qed.

Lemma run_http_get (E : env) (req : request) (w : world) :
  run (http_get E req) w
  = (fetch_step E req w, Some (Ok (net E (length (fetched w)) req).2)).
Proof. reflexivity. Qed.

(** ** The retry loop *)

Section retry_loop_facts.
Context (E : env) (url : string) (headers : option (list (string * string)))
        (timeout_increment timeout_max retries_max : Z) (m : method)
        (extra_exceptions : list exn) (loader : option (raw → result pyval))
        (ret_default : pyval).

Lemma fetched_after_requests reqs w :
  fetched (after_requests E reqs w) = fetched w ++ reqs.
Proof.
  revert w. induction reqs as [|r reqs IH]; intros w; simpl.
  - by rewrite app_nil_r.
  - unfold after_requests in *. rewrite IH. simpl. by rewrite <- app_assoc.
Qed.

Lemma run_retry_loop_step fuel timeout retry w :
  run (retry_loop E url headers timeout_increment timeout_max retries_max m
         extra_exceptions loader ret_default (S fuel) timeout retry) w =
  let w1 := fetch_step E (the_request url headers m timeout) w in
  match attempt E loader (length (fetched w)) (the_request url headers m timeout) with
  | Ok v => (w1, Some (Ok v))
  | Exc e =>
      if is_exc_valid e (exceptions_of m extra_exceptions) then
        if retry >? retries_max
        then (log_warning ("Failed to download URL " +:+ url) w1, Some (Ok ret_default))
        else run (retry_loop E url headers timeout_increment timeout_max retries_max m
                    extra_exceptions loader ret_default fuel
                    (Z.min (timeout + timeout_increment) timeout_max) (retry + 1)) w1
      else (w1, Some (Exc e))
  end.
Proof.
  simpl. unfold attempt.
  destruct (result_bind _ _) as [v|e]; simpl; [done|].
  destruct (is_exc_valid _ _); simpl; [|done].
  destruct (retry >? retries_max); simpl; done.
Qed.

(** [k] failed attempts, all retryable, lead to attempt [k + 1]. *)
Lemma run_retry_loop_retries k : ∀ fuel timeout retry w,
  retry + Z.of_nat k ≤ retries_max + 1 →
  (∀ i t, (i < k)%nat → timeouts timeout_increment timeout_max k timeout !! i = Some t →
     ∃ e, attempt E loader (length (fetched w) + i) (the_request url headers m t) = Exc e
          ∧ is_exc_valid e (exceptions_of m extra_exceptions) = true) →
  run (retry_loop E url headers timeout_increment timeout_max retries_max m
         extra_exceptions loader ret_default (k + fuel) timeout retry) w =
  run (retry_loop E url headers timeout_increment timeout_max retries_max m
         extra_exceptions loader ret_default fuel
         (default timeout (last (timeouts timeout_increment timeout_max (S k) timeout)))
         (retry + Z.of_nat k))
      (after_requests E
         (the_request url headers m <$> timeouts timeout_increment timeout_max k timeout) w).
Proof.
  induction k as [|k IH]; intros fuel timeout retry w Hk Hfail.
  - simpl. by rewrite Z.add_0_r.
  - replace (S k + fuel)%nat with (S (k + fuel)) by lia.
    rewrite run_retry_loop_step. cbv zeta.
    destruct (Hfail 0%nat timeout) as (e & He & Hv); [lia|done|].
    rewrite Nat.add_0_r in He. rewrite He, Hv.
    destruct (Z.gtb_spec retry retries_max) as [?|_]; [lia|].
    rewrite IH.
    + f_equal. f_equal; [|lia].
      change (timeouts timeout_increment timeout_max (S (S k)) timeout)
        with (timeout :: timeouts timeout_increment timeout_max (S k)
                           (Z.min (timeout + timeout_increment) timeout_max)).
      rewrite last_cons.
      destruct (last _) eqn:Hl; [done|].
      by apply last_None in Hl.
    + lia.
    + intros i t Hi Ht.
      destruct (Hfail (S i) t) as (e' & He' & Hv'); [lia|done|].
      exists e'. split; [|done].
      rewrite <- He'. f_equal. unfold fetch_step; simpl. rewrite length_app; simpl. lia.
Qed.
End retry_loop_facts.

Lemma timeouts_snoc inc tmax k timeout :
  timeouts inc tmax (S k) timeout
  = timeouts inc tmax k timeout
    ++ [default timeout (last (timeouts inc tmax (S k) timeout))].
Proof.
  revert timeout. induction k as [|k IH]; intros timeout; [done|].
  change (timeouts inc tmax (S (S k)) timeout)
    with (timeout :: timeouts inc tmax (S k) (Z.min (timeout + inc) tmax)).
  rewrite last_cons. rewrite IH at 1. simpl. do 2 f_equal.
  destruct (last _) eqn:Hl; [done|]. by apply last_None in Hl.
Qed.

Lemma length_timeouts inc tmax k timeout : length (timeouts inc tmax k timeout) = k.
Proof. revert timeout. induction k; intros; simpl; auto. Qed.

Lemma after_requests_app E reqs1 reqs2 w :
  after_requests E (reqs1 ++ reqs2) w = after_requests E reqs2 (after_requests E reqs1 w).
Proof. apply foldl_app. Qed.

Lemma after_requests_frame E reqs w :
  cache (after_requests E reqs w) = cache w
  ∧ warnings (after_requests E reqs w) = warnings w
  ∧ channels (after_requests E reqs w) = channels w
  ∧ posters (after_requests E reqs w) = posters w
  ∧ trace (after_requests E reqs w) = trace w
  ∧ now w ≤ now (after_requests E reqs w).
Proof.
  revert w. induction reqs as [|r reqs IH]; intros w; simpl.
  - repeat split; auto. lia.
  - destruct (IH (fetch_step E r w)) as (-> & -> & -> & -> & -> & Hn).
    repeat split; auto. revert Hn. simpl. lia.
Qed.

(** What the decorator does around the function it wraps. *)
Lemma run_download_cached_by_url (func : string → coro pyval) (url : string) (w : world) :
  run (download_cached_by_url func url) w =
  if truthy (DISK_CACHE_get w url) then (w, Some (Ok (DISK_CACHE_get w url)))
  else match run (func url) w with
       | (w', Some (Ok result)) =>
           (if truthy result then DISK_CACHE_set url result DISK_CACHE_EXPIRE w' else w',
            Some (Ok result))
       | r => r
       end.
Proof.
  unfold download_cached_by_url. rewrite run_bind, run_read.
  destruct (truthy (DISK_CACHE_get w url)); simpl; [done|].
  rewrite run_bind. destruct (run (func url) w) as [w' [[v|e]|]]; [|done..].
  rewrite run_bind. destruct (truthy v); simpl; done.
Qed.

(** C2. For [retries_max = r >= 0], a call whose every attempt raises an
    exception of the retryable set makes exactly [r + 1] requests (with the
    timeouts growing by [timeout_increment] up to [timeout_max]), logs one
    warning and returns [ret_default]; it does not raise.  This holds for the
    retry loop itself and, when the cache has nothing for the URL, for the
    decorated [download_with_retries]. *)
Theorem retries_exhausted_returns_default
    (E : env) (url : string) (headers : option (list (string * string)))
    (timeout timeout_increment timeout_max r : Z) (m : method)
    (extra_exceptions : list exn) (loader : option (raw → result pyval))
    (ret_default : pyval) (w : world) :
  0 ≤ r →
  (∀ n t, ∃ e, attempt E loader n (the_request url headers m t) = Exc e
               ∧ is_exc_valid e (exceptions_of m extra_exceptions) = true) →
  let reqs := the_request url headers m
                <$> timeouts timeout_increment timeout_max (Z.to_nat (r + 1)) timeout in
  let w1 := log_warning ("Failed to download URL " +:+ url) (after_requests E reqs w) in
  run (download_with_retries_wrapped E url headers timeout timeout_increment timeout_max r m
         extra_exceptions loader ret_default) w = (w1, Some (Ok ret_default))
  ∧ Z.of_nat (length reqs) = r + 1
  ∧ fetched w1 = fetched w ++ reqs
  ∧ warnings w1 = warnings w ++ ["Failed to download URL " +:+ url]
  ∧ (truthy (DISK_CACHE_get w url) = false →
     run (download_with_retries E url headers timeout timeout_increment timeout_max r m
            extra_exceptions loader ret_default) w
     = (if truthy ret_default then DISK_CACHE_set url ret_default DISK_CACHE_EXPIRE w1 else w1,
        Some (Ok ret_default))).
Proof.
  intros Hr Hfail reqs w1.
  assert (Hrun : run (download_with_retries_wrapped E url headers timeout timeout_increment
                        timeout_max r m extra_exceptions loader ret_default) w
                 = (w1, Some (Ok ret_default))).
  { unfold download_with_retries_wrapped.
    replace (S (Z.to_nat r)) with (Z.to_nat r + 1)%nat by lia.
    rewrite run_retry_loop_retries; [|lia|intros i t _ _; apply Hfail].
    rewrite run_retry_loop_step. cbv zeta.
    destruct (Hfail (length (fetched (after_requests E
                (the_request url headers m
                   <$> timeouts timeout_increment timeout_max (Z.to_nat r) timeout) w)))
                (default timeout (last (timeouts timeout_increment timeout_max
                                          (S (Z.to_nat r)) timeout))))
      as (e & -> & ->).
    destruct (Z.gtb_spec (1 + Z.of_nat (Z.to_nat r)) r) as [_|?]; [|lia].
    do 2 f_equal. subst w1 reqs.
    set (tl := default timeout (last _)).
    replace (Z.to_nat (r + 1)) with (S (Z.to_nat r)) by lia.
    rewrite timeouts_snoc, fmap_app, after_requests_app. reflexivity. }
  split; [exact Hrun|].
  split; [subst reqs; rewrite length_fmap, length_timeouts; lia|].
  split; [subst w1; simpl; apply fetched_after_requests|].
  split; [subst w1; simpl; by rewrite (proj1 (proj2 (after_requests_frame E reqs w)))|].
  intros Hmiss. unfold download_with_retries.
  rewrite run_download_cached_by_url, Hmiss, Hrun. reflexivity.
Qed.


(** Two retries against a guide that never answers in time: three requests,
    with timeouts 1, 2 and 3, one warning, and the default. *)
Lemma retries_exhausted_returns_default_witness :
  let r := run (download_with_retries_wrapped Edown "http://123tv.live/epg/json/abc.json"
                  None 1 1 10 2 MJson [] None VNone) Demo.w0 in
  r.2 = Some (Ok VNone)
  ∧ req_timeout <$> fetched r.1 = [1; 2; 3]
  ∧ warnings r.1 = ["Failed to download URL http://123tv.live/epg/json/abc.json"]%string.
Proof.
  destruct (retries_exhausted_returns_default Edown "http://123tv.live/epg/json/abc.json"
              None 1 1 10 2 MJson [] None VNone Demo.w0) as (Hrun & _ & Hfetched & Hwarn & _).
  - lia.
  - intros n t. exists TimeoutError. split; reflexivity.
  - cbv zeta. rewrite Hrun. cbn [fst snd]. split; [reflexivity|].
    split; [rewrite Hfetched; reflexivity|rewrite Hwarn; reflexivity].
Defined.


(** ** The cache around the retry loop *)

(** The retry loop only talks to the network and to the log. *)
Lemma retry_loop_frame E url headers inc tmax r m extra loader dflt fuel :
  ∀ timeout retry w,
    let w' := (run (retry_loop E url headers inc tmax r m extra loader dflt fuel timeout retry)
                 w).1 in
    cache w' = cache w ∧ now w ≤ now w'
    ∧ (fuel ≠ 0%nat → length (fetched w) < length (fetched w'))%nat.
Proof.
  induction fuel as [|fuel IH]; intros timeout retry w; cbv zeta.
  - simpl. split; [done|]. split; [lia|done].
  - rewrite run_retry_loop_step. cbv zeta.
    assert (Hstep : ∀ w1 : world, cache w1 = cache (fetch_step E (the_request url headers m timeout) w)
              → now (fetch_step E (the_request url headers m timeout) w) ≤ now w1
              → (length (fetched (fetch_step E (the_request url headers m timeout) w))
                 ≤ length (fetched w1))%nat
              → cache w1 = cache w ∧ now w ≤ now w1
                ∧ (S fuel ≠ 0%nat → length (fetched w) < length (fetched w1))%nat).
    { intros w1 Hc Hn Hf. split; [by rewrite Hc|].
      split; [revert Hn; simpl; lia|]. intros _. revert Hf. simpl. rewrite length_app. simpl. lia. }
    destruct (attempt _ _ _ _) as [v|e]; cbn [fst].
    + apply Hstep; [done|lia|lia].
    + destruct (is_exc_valid _ _); cbn [fst]; [|apply Hstep; [done|lia|lia]].
      destruct (retry >? r); cbn [fst].
      * apply Hstep; [done|simpl; lia|simpl; lia].
      * destruct (IH (Z.min (timeout + inc) tmax) (retry + 1)
                    (fetch_step E (the_request url headers m timeout) w)) as (Hc & Hn & Hf).
        apply Hstep; [done|done|].
        destruct fuel; [simpl; lia|]. specialize (Hf ltac:(done)). lia.
Qed.

Lemma DISK_CACHE_get_later (w : world) (url : string) (d : Z) :
  0 ≤ d → truthy (DISK_CACHE_get w url) = false →
  truthy (DISK_CACHE_get (later d w) url) = false.
Proof.
  unfold DISK_CACHE_get. simpl. intros Hd.
  destruct (cache w !! url) as [[v t]|]; [|done].
  destruct (Z.ltb_spec (now w) t), (Z.ltb_spec (now w + d) t); try done; lia.
Qed.

Lemma DISK_CACHE_get_frame (w w' : world) (url : string) :
  cache w' = cache w → now w ≤ now w' →
  truthy (DISK_CACHE_get w url) = false → truthy (DISK_CACHE_get w' url) = false.
Proof.
  unfold DISK_CACHE_get. intros -> Hn.
  destruct (cache w !! url) as [[v t]|]; [|done].
  destruct (Z.ltb_spec (now w) t), (Z.ltb_spec (now w') t); try done; lia.
Qed.

(** C9. The only write of a call to the cache stores its result, when that
    result is truthy, under the URL.  A falsy result (such as the [None] or
    [[]] a caller passes as [ret_default], returned after the retries are
    exhausted) leaves the cache as it was; a cache that holds truthy values
    only still does after the call; and after a falsy result any later call
    for the URL goes to the network again. *)
Theorem falsy_results_are_not_cached
    (E : env) (url : string) (headers : option (list (string * string)))
    (timeout timeout_increment timeout_max retries_max : Z) (m : method)
    (extra_exceptions : list exn) (loader : option (raw → result pyval))
    (ret_default : pyval) (w : world) :
  let r := run (download_with_retries E url headers timeout timeout_increment timeout_max
                  retries_max m extra_exceptions loader ret_default) w in
  (cache r.1 = cache w
   ∨ ∃ v, r.2 = Some (Ok v) ∧ truthy v = true
          ∧ cache r.1 = <[url := (v, now r.1 + DISK_CACHE_EXPIRE)]> (cache w))
  ∧ (∀ v, r.2 = Some (Ok v) → truthy v = false → cache r.1 = cache w)
  ∧ (cache_truthy w → cache_truthy r.1)
  ∧ (∀ v, r.2 = Some (Ok v) → truthy v = false →
     ∀ headers' timeout' timeout_increment' timeout_max' retries_max' m' extra_exceptions'
       loader' ret_default' d,
       0 ≤ d →
       (length (fetched (later d r.1))
        < length (fetched (run (download_with_retries E url headers' timeout'
                                  timeout_increment' timeout_max' retries_max' m'
                                  extra_exceptions' loader' ret_default')
                             (later d r.1)).1))%nat).
Proof.
  intros r.
  assert (Hr : r = _) by apply run_download_cached_by_url. clearbody r.
  destruct (truthy (DISK_CACHE_get w url)) eqn:Hget.
  { subst r. cbn [fst snd]. split; [by left|]. split; [done|]. split; [done|].
    intros v [= <-] Hv. congruence. }
  unfold download_with_retries_wrapped in Hr.
  pose proof (retry_loop_frame E url headers timeout_increment timeout_max retries_max m
                extra_exceptions loader ret_default (S (Z.to_nat retries_max)) timeout 1 w)
    as Hframe. cbv zeta in Hframe.
  destruct (run _ w) as [w1 [[v|e]|]]; cbn [fst snd] in *; subst r; cbn [fst snd];
    destruct Hframe as (Hc & Hn & Hf); try (split; [by left|]; split; [done|]; split;
      [unfold cache_truthy; by rewrite Hc|done]).
  destruct (truthy v) eqn:Hv; cbn [fst snd].
  - split; [right; exists v; simpl; by rewrite Hc|]. split; [intros ? [= <-]; congruence|].
    split; [|intros ? [= <-]; congruence].
    intros Hinv u v' t. simpl. rewrite Hc. unfold cache_truthy in Hinv.
    destruct (decide (u = url)) as [->|Hne].
    + rewrite lookup_insert_eq. by intros [= <- <-].
    + rewrite lookup_insert_ne by done. apply Hinv.
  - split; [by left|]. split; [done|]. split; [unfold cache_truthy; by rewrite Hc|].
    intros ? _ _ headers' timeout' inc' tmax' r' m' extra' loader' dflt' d Hd.
    unfold download_with_retries. rewrite run_download_cached_by_url.
    rewrite DISK_CACHE_get_later; [|done|by apply (DISK_CACHE_get_frame w)].
    unfold download_with_retries_wrapped.
    pose proof (retry_loop_frame E url headers' inc' tmax' r' m' extra' loader' dflt'
                  (S (Z.to_nat r')) timeout' 1 (later d w1)) as Hframe.
    cbv zeta in Hframe. destruct Hframe as (_ & _ & Hf').
    specialize (Hf' ltac:(done)).
    destruct (run _ (later d w1)) as [w2 [[v2|e2]|]]; cbn [fst snd] in *; try done.
    destruct (truthy v2); simpl; done.
Qed.

(** C3, as amended.  When a call for a URL returns a truthy value [v], the
    cache holds [v] under the URL (for [DISK_CACHE_EXPIRE] seconds from the
    end of the call, when the call went to the network), and a second call
    for the URL before the entry expires, whatever its other arguments,
    returns [v] and leaves the world as it found it: no request is made. *)
Theorem truthy_result_is_served_from_cache
    (E : env) (url : string) (headers : option (list (string * string)))
    (timeout timeout_increment timeout_max retries_max : Z) (m : method)
    (extra_exceptions : list exn) (loader : option (raw → result pyval))
    (ret_default : pyval) (w w1 : world) (v : pyval) :
  run (download_with_retries E url headers timeout timeout_increment timeout_max
         retries_max m extra_exceptions loader ret_default) w = (w1, Some (Ok v)) →
  truthy v = true →
  ∃ expire_time,
    cache w1 !! url = Some (v, expire_time)
    ∧ now w1 < expire_time
    ∧ (truthy (DISK_CACHE_get w url) = false → expire_time = now w1 + DISK_CACHE_EXPIRE)
    ∧ ∀ headers' timeout' timeout_increment' timeout_max' retries_max' m' extra_exceptions'
        loader' ret_default' d,
        0 ≤ d → now w1 + d < expire_time →
        run (download_with_retries E url headers' timeout' timeout_increment' timeout_max'
               retries_max' m' extra_exceptions' loader' ret_default') (later d w1)
        = (later d w1, Some (Ok v)).
Proof.
  intros Hrun Hv.
  assert (Hhit : ∀ t, cache w1 !! url = Some (v, t) → now w1 < t →
            ∀ headers' timeout' inc' tmax' r' m' extra' loader' dflt' d,
              0 ≤ d → now w1 + d < t →
              run (download_with_retries E url headers' timeout' inc' tmax' r' m' extra'
                     loader' dflt') (later d w1) = (later d w1, Some (Ok v))).
  { intros t Ht Hlive headers' timeout' inc' tmax' r' m' extra' loader' dflt' d Hd Hwin.
    unfold download_with_retries. rewrite run_download_cached_by_url.
    assert (Hg : DISK_CACHE_get (later d w1) url = v).
    { unfold DISK_CACHE_get. simpl. rewrite Ht.
      destruct (Z.ltb_spec (now w1 + d) t); [done|lia]. }
    by rewrite Hg, Hv. }
  unfold download_with_retries in Hrun. rewrite run_download_cached_by_url in Hrun.
  destruct (truthy (DISK_CACHE_get w url)) eqn:Hget.
  - injection Hrun as <- <-.
    unfold DISK_CACHE_get in Hget, Hhit |- *.
    destruct (cache w !! url) as [[v' t]|] eqn:Hc; [|done].
    destruct (Z.ltb_spec (now w) t); [|done].
    exists t. split; [done|]. split; [done|]. split; [done|]. by apply Hhit.
  - unfold download_with_retries_wrapped in Hrun.
    destruct (run _ w) as [w' [[v'|e]|]]; try done.
    injection Hrun as <- <-. rewrite Hv in *.
    exists (now w' + DISK_CACHE_EXPIRE).
    assert (Hc : cache (DISK_CACHE_set url v' DISK_CACHE_EXPIRE w') !! url
                 = Some (v', now w' + DISK_CACHE_EXPIRE)).
    { simpl. by rewrite lookup_insert_eq. }
    assert (Hlive : now (DISK_CACHE_set url v' DISK_CACHE_EXPIRE w') < now w' + DISK_CACHE_EXPIRE).
    { simpl. unfold DISK_CACHE_EXPIRE. lia. }
    split; [done|]. split; [done|]. split; [done|]. by apply Hhit.
Qed.

Lemma truthy_result_is_served_from_cache_witness :
  ∃ w1, run (download_with_retries Demo.E "https://img/42.jpg" None 15 10 120 10 MRead []
               (Some (image_loader Demo.E 720 80)) VNone) (later 3600 w1)
        = (later 3600 w1, Some (Ok (VBytes Demo.poster))).
Proof.
  destruct (truthy_result_is_served_from_cache Demo.E "https://img/42.jpg" None 15 10 120 10
              MRead [] (Some (image_loader Demo.E 720 80)) VNone Demo.w0
              (DISK_CACHE_set "https://img/42.jpg" (VBytes Demo.poster) DISK_CACHE_EXPIRE
                 (fetch_step Demo.E (mkRequest "https://img/42.jpg" [] MRead 15) Demo.w0))
              (VBytes Demo.poster) eq_refl eq_refl) as (t & _ & _ & Ht & Hserved).
  eexists. apply Hserved; [lia|]. rewrite (Ht eq_refl). vm_compute. reflexivity.
Defined.

(** C3 as stated does not hold: a call can succeed with a falsy value (a
    guide without items gives the empty list of programs), which is not
    stored, so the second call asks the network again. *)
Lemma successful_fetch_served_from_cache_fails :
  ¬ (∀ (E : env) (url : string) (headers : option (list (string * string)))
       (timeout timeout_increment timeout_max retries_max : Z) (m : method)
       (extra_exceptions : list exn) (loader : option (raw → result pyval))
       (ret_default : pyval) (w w1 : world) (v : pyval),
       run (download_with_retries E url headers timeout timeout_increment timeout_max
              retries_max m extra_exceptions loader ret_default) w = (w1, Some (Ok v)) →
       warnings w1 = warnings w →
       ∀ d, 0 ≤ d < DISK_CACHE_EXPIRE →
         run (download_with_retries E url headers timeout timeout_increment timeout_max
                retries_max m extra_exceptions loader ret_default) (later d w1)
         = (later d w1, Some (Ok v))).
Proof.
  intros H.
  specialize (H Eempty "http://123tv.live/epg/json/abc.json?_=1700000000" (Some HEADERS)
                1 1 10 10 MJson [ValidationError; AttributeError]
                (Some (programs_loader Eempty)) (VPrograms []) Demo.w0
                (fetch_step Eempty
                   (mkRequest "http://123tv.live/epg/json/abc.json?_=1700000000" HEADERS MJson 1)
                   Demo.w0)
                (VPrograms []) eq_refl eq_refl 0 ltac:(unfold DISK_CACHE_EXPIRE; lia)).
  apply (f_equal (λ r, length (fetched r.1))) in H. vm_compute in H. discriminate H.
Qed.

(** ** The tags *)

Lemma elem_of_flagged (mask : Z) (data : gmap (Z * Z) Z) (key : Z * Z) :
  key ∈ flagged mask data ↔ ∃ v, data !! key = Some v ∧ Z.land v mask ≠ 0.
Proof.
  unfold flagged. rewrite elem_of_dom. unfold is_Some. split.
  - intros [v Hv]. apply map_lookup_filter_Some in Hv as [? ?]. by exists v.
  - intros (v & Hv & Hm). exists v. by apply map_lookup_filter_Some.
Qed.

Lemma tag_program_fields new live p :
  let p' := tag_program new live p in
  program_id p' = program_id p ∧ start_timestamp p' = start_timestamp p
  ∧ end_timestamp p' = end_timestamp p ∧ program_name p' = program_name p
  ∧ _details p' = _details p ∧ _cast p' = _cast p.
Proof. unfold tag_program. repeat case_decide; simpl; repeat split; reflexivity. Qed.

Lemma tag_program_tags new live p :
  tags (tag_program new live p)
  = tags p
    ++ (if decide ((program_id p, start_timestamp p) ∈ new) then ["new"%string] else [])
    ++ (if decide ((program_id p, start_timestamp p) ∈ live) then ["live"%string] else []).
Proof.
  unfold tag_program. repeat case_decide; simpl; rewrite ?app_nil_r, <- ?app_assoc; done.
Qed.

Lemma tag_program_untouched new live p :
  (program_id p, start_timestamp p) ∉ new → (program_id p, start_timestamp p) ∉ live →
  tag_program new live p = p.
Proof. unfold tag_program. intros. repeat case_decide; try done. Qed.

Lemma with_programs_id (c : Channel) : with_programs (programs c) c = c.
Proof. by destruct c. Qed.

Lemma set_channels_id (w : world) : set_channels (λ cs, cs) w = w.
Proof. by destruct w. Qed.

Lemma alter_all {A} (F : A → A) (n : nat) : ∀ (a : nat) (l : list A),
  (a + n = length l)%nat →
  foldl (λ l i, alter F i l) l (seq a n) = take a l ++ (F <$> drop a l).
Proof.
  induction n as [|n IH]; intros a l Hlen; simpl.
  - rewrite drop_ge by lia. rewrite take_ge by lia. by rewrite app_nil_r.
  - destruct (lookup_lt_is_Some_2 l a ltac:(lia)) as [x Hx].
    rewrite IH by (rewrite length_alter; lia).
    rewrite (take_S_r (alter F a l) a (F x)) by (by rewrite list_lookup_alter_eq, Hx).
    rewrite take_alter_ge by lia. rewrite drop_alter_lt by lia.
    rewrite (drop_S l x a Hx). rewrite fmap_cons, <- app_assoc. done.
Qed.

(** The loop over the channels tags every program of every channel. *)
Lemma run_tag_channels new live : ∀ n a w,
  (a + n ≤ length (channels w))%nat →
  Forall (λ c, programs c ≠ None) (channels w) →
  run (for_each (seq a n) (tag_channel new live)) w
  = (set_channels (λ cs,
       foldl (λ l i, alter (λ c, with_programs
                              (fmap (M:=list) (tag_program new live) <$> programs c) c) i l)
             cs (seq a n)) w,
     Some (Ok tt)).
Proof.
  induction n as [|n IH]; intros a w Hlen Hall.
  - simpl. by rewrite set_channels_id.
  - cbn [seq for_each]. rewrite run_bind. unfold tag_channel at 1.
    rewrite run_bind, run_read.
    destruct (programs (get_channel w a)) as [ps|] eqn:Hps.
    + rewrite run_write, IH; [done| |].
      * simpl. rewrite length_alter. lia.
      * simpl. apply Forall_alter; [done|]. intros c _ Hc. simpl. by destruct (programs c).
    + exfalso. unfold get_channel in Hps.
      destruct (channels w !! a) as [c|] eqn:Hc.
      * rewrite (list_lookup_total_correct _ _ _ Hc) in Hps.
        by eapply (proj1 (Forall_lookup _ _) Hall).
      * apply lookup_ge_None in Hc. lia.
Qed.

(** What [download_program_tags] does with the result of the bulk fetch. *)
Lemma run_download_program_tags E (w w1 : world) (v : pyval) :
  run (download_with_retries E (tags_url (now w - 30 * 60 - utcoffset E)) (Some tags_headers)
         30 5 60 10 MJson [] (Some tags_loader) VNone) w = (w1, Some (Ok v)) →
  Forall (λ c, programs c ≠ None) (channels w1) →
  run (download_program_tags E) w =
  match v with
  | VTags data =>
      (if truthy v
       then set_channels (fmap (λ c, with_programs
              (fmap (M:=list) (tag_program (flagged 4 data) (flagged 1 data)) <$> programs c)
              c)) w1
       else w1, Some (Ok tt))
  | _ => (w1, if truthy v then Some (Exc AttributeError) else Some (Ok tt))
  end.
Proof.
  intros Hrun Hall. unfold download_program_tags.
  rewrite run_bind, run_read, run_bind, Hrun.
  destruct (truthy v) eqn:Hv; [|by destruct v].
  destruct v; try done.
  rewrite run_bind, run_read. rewrite run_tag_channels by (done || simpl; lia).
  f_equal.
  destruct w1 as [? ? ? ? ? cs ? ? ? ?]; unfold set_channels; simpl. f_equal.
  rewrite alter_all by done. by rewrite take_0, drop_0.
Qed.

Lemma program_at_fmap (F : Program → Program) (w : world) (ci pi : nat) :
  program_at (set_channels (fmap (λ c, with_programs (fmap (M:=list) F <$> programs c) c)) w)
             ci pi
  = F <$> program_at w ci pi.
Proof.
  unfold program_at. simpl. rewrite list_lookup_fmap.
  destruct (channels w !! ci) as [c|]; simpl; [|done].
  destruct (programs c) as [ps|]; simpl; [|done].
  by rewrite list_lookup_fmap.
Qed.

(** C6. When the bulk fetch of the tags stage returns the dictionary [data],
    every program gets, after the tags it had, ["new"] when [data] maps its
    pair (id, start time) to a value with bit [0b100] set and then ["live"]
    when the value has bit [0b1] set; a program whose pair is not a key of
    [data] (the same id at another start time, say) is left as it was. *)
Theorem tags_follow_the_bulk_result (E : env) (w w1 : world) (data : gmap (Z * Z) Z) :
  run (download_with_retries E (tags_url (now w - 30 * 60 - utcoffset E)) (Some tags_headers)
         30 5 60 10 MJson [] (Some tags_loader) VNone) w = (w1, Some (Ok (VTags data))) →
  Forall (λ c, programs c ≠ None) (channels w1) →
  let r := run (download_program_tags E) w in
  r.2 = Some (Ok tt)
  ∧ ∀ ci pi p, program_at w1 ci pi = Some p →
      ∃ p', program_at r.1 ci pi = Some p'
        ∧ (let flag mask := match data !! (program_id p, start_timestamp p) with
                            | Some v => negb (Z.land v mask =? 0)
                            | None => false
                            end in
           tags p' = tags p ++ (if flag 4 then ["new"%string] else [])
                            ++ (if flag 1 then ["live"%string] else []))
        ∧ (∀ v, data !! (program_id p, start_timestamp p) = Some v → Z.land v 4 ≠ 0 →
           ∃ rest, tags p' = tags p ++ "new"%string :: rest)
        ∧ (∀ v, data !! (program_id p, start_timestamp p) = Some v → Z.land v 1 ≠ 0 →
           ∃ front, tags p' = tags p ++ front ++ ["live"%string])
        ∧ (data !! (program_id p, start_timestamp p) = None → p' = p).
Proof.
  intros Hrun Hall r. subst r. rewrite (run_download_program_tags E w w1 _ Hrun Hall).
  assert (Htag : ∀ p, let p' := tag_program (flagged 4 data) (flagged 1 data) p in
            (let flag mask := match data !! (program_id p, start_timestamp p) with
                              | Some v => negb (Z.land v mask =? 0)
                              | None => false
                              end in
             tags p' = tags p ++ (if flag 4 then ["new"%string] else [])
                              ++ (if flag 1 then ["live"%string] else []))
            ∧ (data !! (program_id p, start_timestamp p) = None → p' = p)).
  { intros p p'. split.
    - subst p'. rewrite tag_program_tags. cbv beta zeta.
      assert (Hflag : ∀ mask, (if decide ((program_id p, start_timestamp p) ∈ flagged mask data)
                               then true else false)
                = match data !! (program_id p, start_timestamp p) with
                  | Some v => negb (Z.land v mask =? 0)
                  | None => false
                  end).
      { intros mask. case_decide as Hin.
        - apply elem_of_flagged in Hin as (v & -> & Hm).
          symmetry. apply negb_true_iff. by apply Z.eqb_neq.
        - destruct (data !! _) as [v|] eqn:Hd; [|done].
          symmetry. apply negb_false_iff. apply Z.eqb_eq.
          destruct (decide (Z.land v mask = 0)) as [|Hne]; [done|].
          exfalso. apply Hin. apply elem_of_flagged. eauto. }
      rewrite <- (Hflag 4), <- (Hflag 1). by repeat case_decide.
    - intros Hnone. apply tag_program_untouched; rewrite elem_of_flagged;
        intros (v & Hv & _); congruence. }
  assert (Hgoal : ∀ p p', 
            (let flag mask := match data !! (program_id p, start_timestamp p) with
                              | Some v => negb (Z.land v mask =? 0)
                              | None => false
                              end in
             tags p' = tags p ++ (if flag 4 then ["new"%string] else [])
                              ++ (if flag 1 then ["live"%string] else [])) →
            (∀ v, data !! (program_id p, start_timestamp p) = Some v → Z.land v 4 ≠ 0 →
               ∃ rest, tags p' = tags p ++ "new"%string :: rest)
            ∧ (∀ v, data !! (program_id p, start_timestamp p) = Some v → Z.land v 1 ≠ 0 →
               ∃ front, tags p' = tags p ++ front ++ ["live"%string])).
  { intros p p' Heq. cbv beta zeta in Heq. split; intros v Hv Hm; rewrite Hv in Heq.
    - apply Z.eqb_neq in Hm. rewrite Hm in Heq. simpl in Heq. eauto.
    - apply Z.eqb_neq in Hm. rewrite Hm in Heq. simpl in Heq. eauto. }
  destruct (truthy (VTags data)) eqn:Hv; simpl.
  - split; [done|]. intros ci pi p Hp. rewrite program_at_fmap, Hp. simpl.
    eexists. split; [done|]. destruct (Htag p) as [Heq Hnone].
    split; [exact Heq|]. destruct (Hgoal _ _ Heq). done.
  - split; [done|]. intros ci pi p Hp. exists p. split; [done|].
    assert (Hempty : data = ∅).
    { apply negb_false_iff in Hv. by apply bool_decide_eq_true in Hv. }
    subst data.
    assert (Heq : let flag mask := match (∅ : gmap (Z * Z) Z) !! (program_id p, start_timestamp p) with
                              | Some v => negb (Z.land v mask =? 0)
                              | None => false
                              end in
             tags p = tags p ++ (if flag 4 then ["new"%string] else [])
                              ++ (if flag 1 then ["live"%string] else [])).
    { cbv beta zeta. rewrite lookup_empty. simpl. by rewrite app_nil_r. }
    split; [exact Heq|]. destruct (Hgoal _ _ Heq). done.
Qed.

(** The scenario of the guide flagging (42, 1000) with [0b101]: the airing
    at 1000 gets both tags, the airing of the same program at 2000 none. *)
Lemma tags_follow_the_bulk_result_witness :
  let r := run (download_program_tags Demo.E) w_programs in
  (tags <$> program_at r.1 0 0) = Some ["new"; "live"]%string
  ∧ (tags <$> program_at r.1 0 1) = Some [].
Proof.
  destruct (tags_follow_the_bulk_result Demo.E w_programs
              (run (download_with_retries Demo.E
                      (tags_url (now w_programs - 30 * 60 - utcoffset Demo.E))
                      (Some tags_headers) 30 5 60 10 MJson [] (Some tags_loader) VNone)
                 w_programs).1
              {[ (42, 1000) := 5 ]})
    as [_ H].
  - vm_compute. reflexivity.
  - repeat constructor; done.
  - cbv zeta. split.
    + destruct (H 0%nat 0%nat (mkProgram 42 1000 2800 "News" [] None None) eq_refl)
        as (p' & -> & Htags & _). simpl. f_equal. exact Htags.
    + destruct (H 0%nat 1%nat (mkProgram 42 2000 3800 "News" [] None None) eq_refl)
        as (p' & -> & _ & _ & _ & Hsame). simpl. f_equal.
      rewrite (Hsame eq_refl). reflexivity.
Defined.

(** ** Coroutines that terminate, coroutines that return *)

Lemma terminates_bind {A B} (c : coro A) (k : A → coro B) :
  terminates c → (∀ a, terminates (k a)) → terminates (bind c k).
Proof. induction c; simpl; auto. Qed.

Lemma terminates_try_except {A} (c : coro A) (h : exn → coro A) :
  terminates c → (∀ e, terminates (h e)) → terminates (try_except c h).
Proof. induction c; simpl; auto. Qed.

Lemma returns_terminates {A} (c : coro A) : returns c → terminates c.
Proof. induction c; simpl; auto. Qed.




Lemma terminates_for_each {X} (l : list X) (body : X → coro unit) :
  (∀ x, terminates (body x)) → terminates (for_each l body).
Proof. intros H. induction l; simpl; [done|]. apply terminates_bind; auto. Qed.


Lemma run_terminates {A} (c : coro A) (w : world) : terminates c → (run c w).2 ≠ None.
Proof. revert w. induction c; simpl; intros w Hc; auto; done. Qed.

Lemma run_returns {A} (c : coro A) (w : world) : returns c → ∃ a, (run c w).2 = Some (Ok a).
Proof. revert w. induction c; simpl; intros w Hc; eauto; done. Qed.









(** ** Steps and the relations they respect *)

Section safe_facts.
Context (I : world → Prop) (R : world → world → Prop).

Lemma safe_bind {A B} (c : coro A) (k : A → coro B) :
  safe I R c → (∀ a, safe I R (k a)) → safe I R (bind c k).
Proof.
  induction c as [| | |f k' IH|f k' IH]; simpl; auto; intros Hc Hk w Hw;
    (split; [by apply Hc|apply IH; [by apply Hc|done]]).
Qed.

Lemma safe_try_except {A} (c : coro A) (h : exn → coro A) :
  safe I R c → (∀ e, safe I R (h e)) → safe I R (try_except c h).
Proof.
  induction c as [| | |f k' IH|f k' IH]; simpl; auto; intros Hc Hk w Hw;
    (split; [by apply Hc|apply IH; [by apply Hc|done]]).
Qed.

Lemma safe_for_each {X} (l : list X) (body : X → coro unit) :
  (∀ x, safe I R (body x)) → safe I R (for_each l body).
Proof. intros H. induction l; simpl; [done|]. apply safe_bind; auto. Qed.

Lemma safe_lift {X} (r : result X) : safe I R (lift r).
Proof. by destruct r. Qed.

Lemma safe_read {X} (f : world → X) : (∀ w, R w w) → safe I R (read f).
Proof. intros Hrefl w. simpl. auto. Qed.

(** A read whose value is known under [I]. *)
Lemma safe_read_bind {X B} (f : world → X) (k : X → coro B) :
  (∀ w, R w w) → (∀ w, I w → safe I R (k (f w))) → safe I R (bind (read f) k).
Proof. intros Hrefl Hk w Hw. simpl. auto. Qed.

Lemma safe_write (f : world → world) : (∀ w, I w → R w (f w)) → safe I R (write f).
Proof. intros Hf w Hw. simpl. auto. Qed.

Context (HR : steps I R).

Lemma safe_advance {A} (c : coro A) (w : world) :
  I w → safe I R c → R w (advance c w).1 ∧ safe I R (advance c w).2.
Proof.
  revert w. induction c as [| | |f k IH|f k IH]; simpl; intros w Hw Hc;
    try (split; [apply HR|done]).
  destruct (Hc w Hw) as [Hf Hk].
  destruct (IH w (f w) (steps_inv _ _ HR _ _ Hw Hf) Hk) as [H1 H2].
  split; [by eapply (steps_trans _ _ HR)|done].
Qed.

Lemma safe_resume {A} (c : coro A) (w : world) :
  I w → safe I R c → R w (resume c w).1 ∧ safe I R (resume c w).2.
Proof.
  intros Hw Hc. destruct c as [| | |f k|f k]; try (by apply safe_advance).
  simpl. destruct (Hc w Hw) as [Hf Hk].
  destruct (safe_advance (k w) (f w) (steps_inv _ _ HR _ _ Hw Hf) Hk) as [H1 H2].
  split; [by eapply (steps_trans _ _ HR)|done].
Qed.

Lemma run_safe {A} (c : coro A) (w : world) : I w → safe I R c → R w (run c w).1.
Proof.
  revert w. induction c as [| | |f k IH|f k IH]; simpl; intros w Hw Hc;
    try apply HR; destruct (Hc w Hw) as [Hf Hk];
    (eapply (steps_trans _ _ HR); [exact Hf|apply IH; [|done]]);
    by eapply (steps_inv _ _ HR).
Qed.
End safe_facts.

(** ** The steps of the stages *)

Section safe_stages.
Context (E : env) (I : world → Prop) (R : world → world → Prop).
Context (Hrefl : ∀ w, R w w) (HR : admits_fetching E R).

Lemma safe_retry_loop url headers inc tmax r m extra loader dflt fuel :
  ∀ timeout retry,
    safe I R (retry_loop E url headers inc tmax r m extra loader dflt fuel timeout retry).
Proof.
  induction fuel as [|fuel IH]; intros timeout retry; [done|].
  cbn [retry_loop]. apply safe_bind.
  - intros w _. split; [apply HR|done].
  - intros resp. destruct (result_bind _ _) as [v|e]; [done|].
    destruct (negb _); [done|]. destruct (retry >? r); [|apply IH].
    apply safe_bind; [|done]. apply safe_write. intros w _. apply HR.
Qed.

Lemma safe_download_with_retries url headers timeout inc tmax r m extra loader dflt :
  safe I R (download_with_retries E url headers timeout inc tmax r m extra loader dflt).
Proof.
  unfold download_with_retries, download_cached_by_url.
  apply safe_bind; [by apply safe_read|]. intros v0.
  destruct (negb _); [|done].
  apply safe_bind; [apply safe_retry_loop|]. intros v.
  apply safe_bind; [|done].
  destruct (truthy v) eqn:Hv; [|done]. apply safe_write. intros w _. by apply HR.
Qed.

Lemma safe_download_programs ci :
  (∀ ps w, I w → R w (set_channel ci (with_programs (Some ps)) w)) →
  safe I R (download_programs E ci).
Proof.
  intros Hassign. unfold download_programs.
  apply safe_bind; [by apply safe_read|]. intros c.
  destruct (no_tvguide_id c); [apply safe_write; auto|].
  apply safe_bind; [by apply safe_read|]. intros t.
  apply safe_bind; [apply safe_download_with_retries|]. intros v.
  apply safe_write; auto.
Qed.

(** The task of a channel known to have no guide id assigns the empty list. *)
Lemma safe_download_programs_skip ci :
  (∀ w, I w → no_tvguide_id (get_channel w ci) = true) →
  (∀ w, I w → R w (set_channel ci (with_programs (Some [])) w)) →
  safe I R (download_programs E ci).
Proof.
  intros Hno Hassign. unfold download_programs.
  apply safe_read_bind; [done|]. intros w Hw. rewrite (Hno w Hw). apply safe_write; auto.
Qed.

Lemma safe_download_program_detail ci pi :
  (∀ f w, I w → R w (set_program ci pi f w)) →
  safe I R (download_program_detail E ci pi).
Proof.
  intros Hset. unfold download_program_detail.
  apply safe_bind; [by apply safe_read|]. intros p.
  apply safe_bind; [apply safe_download_with_retries|]. intros v.
  apply safe_write; auto.
Qed.

Lemma safe_download_program_cast ci pi :
  (∀ f w, I w → R w (set_program ci pi f w)) →
  safe I R (download_program_cast E ci pi).
Proof.
  intros Hset. unfold download_program_cast.
  apply safe_bind; [by apply safe_read|]. intros p.
  destruct (cast_id_of p); [|done].
  apply safe_bind; [apply safe_download_with_retries|]. intros v.
  apply safe_write; auto.
Qed.

Lemma safe_process_image ci pi ii size quality base :
  (∀ f w, I w → R w (set_program ci pi f w)) →
  (∀ path b w, I w → R w (emit (EvWrite path) (set_posters (λ fs, <[path := b]> fs) w))) →
  safe I R (process_image E ci pi ii size quality base).
Proof.
  intros Hset Hfile. unfold process_image.
  repeat first
    [ by apply safe_read | apply safe_lift | apply safe_download_with_retries
    | apply safe_write; intros ? ?; first [by apply Hfile | by apply Hset]
    | apply safe_bind; [|intros ?] ].
Qed.

Lemma safe_download_program_images ci pi size quality base :
  (∀ f w, I w → R w (set_program ci pi f w)) →
  (∀ path b w, I w → R w (emit (EvWrite path) (set_posters (λ fs, <[path := b]> fs) w))) →
  safe I R (download_program_images E ci pi size quality base).
Proof.
  intros Hset Hfile. unfold download_program_images.
  apply safe_bind; [by apply safe_read|]. intros p.
  destruct (_details p); [|done].
  apply safe_for_each. intros ii. unfold guarded_image.
  apply safe_try_except; [by apply safe_process_image|]. intros e.
  apply safe_bind; [by apply safe_read|]. intros i. apply safe_write. intros w _. apply HR.
Qed.

Lemma safe_download_program_tags :
  (∀ ci new live w, I w →
     R w (set_channel ci (λ c, with_programs
            (fmap (M:=list) (tag_program new live) <$> programs c) c) w)) →
  safe I R (download_program_tags E).
Proof.
  intros Htag. unfold download_program_tags.
  apply safe_bind; [by apply safe_read|]. intros t.
  apply safe_bind; [apply safe_download_with_retries|]. intros v.
  destruct (truthy v); [|done]. destruct v; try done.
  apply safe_bind; [by apply safe_read|]. intros n.
  apply safe_for_each. intros ci. unfold tag_channel.
  apply safe_bind; [by apply safe_read|]. intros c.
  destruct (programs c); [|done]. apply safe_write. intros w Hw. by apply Htag.
Qed.
End safe_stages.




Lemma safe_mono' {A} (I : world → Prop) (R R' : world → world → Prop) (c : coro A) :
  (∀ w w', R w w' → R' w w') → safe I R c → safe I R' c.
Proof.
  intros HR. induction c as [| | |f k IH|f k IH]; simpl; auto;
    intros Hc w Hw; destruct (Hc w Hw); auto.
Qed.

(** ** The images *)

Lemma lookup_total_alter_preserved {A X} `{!Inhabited A} (g : A → X) (f : A → A)
    (l : list A) (i : nat) :
  (∀ x, g (f x) = g x) → g (alter f i l !!! i) = g (l !!! i).
Proof.
  intros Hg. destruct (decide (i < length l)%nat) as [Hi|Hi].
  - by rewrite list_lookup_total_alter_eq.
  - rewrite !list_lookup_total_alt, list_lookup_alter_eq.
    rewrite (lookup_ge_None_2 l i) by lia. done.
Qed.


Lemma channel_programs_alter f pi c :
  channel_programs (with_programs (alter f pi <$> programs c) c)
  = alter f pi (channel_programs c).
Proof. unfold channel_programs. simpl. by destruct (programs c). Qed.







(** ** The gate, for every schedule *)

Lemma running_from_spec {A} (slots : list (task_id * slot A)) : ∀ i0 i t c,
  (i, t, c) ∈ running_from i0 slots →
  ∃ j, i = (i0 + j)%nat ∧ slots !! j = Some (t, Running c).
Proof.
  induction slots as [|[t' s] slots IH]; intros i0 i t c Hin; simpl in Hin.
  - by apply elem_of_nil in Hin.
  - assert (Hrest : (i, t, c) ∈ running_from (S i0) slots →
              ∃ j, i = (i0 + j)%nat ∧ ((t', s) :: slots) !! j = Some (t, Running c)).
    { intros H. destruct (IH _ _ _ _ H) as (j & -> & Hj). exists (S j). split; [lia|done]. }
    destruct s as [c'|c'|a]; auto.
    apply elem_of_cons in Hin as [[= -> -> ->]|Hin]; auto.
    exists 0%nat. split; [lia|done].
Qed.

Lemma first_waiting_from_spec {A} (slots : list (task_id * slot A)) : ∀ i0 i t c,
  first_waiting_from i0 slots = Some (i, t, c) →
  ∃ j, i = (i0 + j)%nat ∧ slots !! j = Some (t, Waiting c).
Proof.
  induction slots as [|[t' s] slots IH]; intros i0 i t c Hin; simpl in Hin; [done|].
  assert (Hrest : first_waiting_from (S i0) slots = Some (i, t, c) →
            ∃ j, i = (i0 + j)%nat ∧ ((t', s) :: slots) !! j = Some (t, Waiting c)).
  { intros H. destruct (IH _ _ _ _ H) as (j & -> & Hj). exists (S j). split; [lia|done]. }
  destruct s as [c'|c'|a]; auto.
  injection Hin as -> -> ->. exists 0%nat. split; [lia|done].
Qed.

Lemma options_spec {A} (n : nat) (slots : list (task_id * slot A))
    (b : bool) (i : nat) (t : task_id) (c : coro A) :
  (b, (i, t, c)) ∈ options n slots →
  slots !! i = Some (t, if b then Waiting c else Running c).
Proof.
  unfold options. rewrite elem_of_app. intros [Hin|Hin].
  - case_decide; [|by apply elem_of_nil in Hin].
    destruct (first_waiting_from 0 slots) as [[[i' t'] c']|] eqn:Hw;
      [|by apply elem_of_nil in Hin].
    apply list_elem_of_singleton in Hin. injection Hin as -> -> -> ->.
    by destruct (first_waiting_from_spec _ _ _ _ _ Hw) as (j & -> & Hj).
  - apply list_elem_of_fmap in Hin as ([[i' t'] c'] & [= -> -> -> ->] & Hin).
    by destruct (running_from_spec _ _ _ _ _ Hin) as (j & -> & Hj).
Qed.

Lemma nth_mod_elem_of {X} (k : nat) (o : X) (os : list X) :
  nth (k mod length (o :: os)) (o :: os) o ∈ o :: os.
Proof.
  apply list_elem_of_In, nth_In. apply Nat.mod_upper_bound. simpl. lia.
Qed.

Section gather_respects.
Context {A : Type} (I : world → Prop) (R : world → world → Prop).
Context (HR : steps I R) (Htick : ∀ w, R w (set_ticks S w)).
Context (sched : nat → nat) (n : nat).

(** Whatever the schedule and however long it runs, a batch whose tasks only
    take steps of [R] takes the world along [R]. *)
Lemma gather_loop_respects (fuel : nat) : ∀ (slots : list (task_id * slot A)) w,
  I w →
  Forall (λ ts, slot_safe I R ts.2 ∧ task_ok R ts.1) slots →
  R w (gather_loop fuel sched n slots w).1.
Proof.
  induction fuel as [|fuel IH]; intros slots w Hw Hslots; cbn [gather_loop]; [apply HR|].
  destruct (options n slots) as [|o os] eqn:Hopts; [apply HR|].
  pose proof (nth_mod_elem_of (sched (ticks w)) o os) as Hin.
  rewrite <- Hopts in Hin at 3.
  destruct (nth _ _ _) as [b [[i t] c]].
  apply options_spec in Hin.
  pose proof (proj1 (Forall_lookup _ _) Hslots _ _ Hin) as [Hsafe Hok]. simpl in Hsafe, Hok.
  assert (Hw1 : I (set_ticks S w)) by (eapply (steps_inv _ _ HR); [exact Hw|apply Htick]).
  set (wc := if b then advance c (emit (EvStart t) (set_ticks S w))
             else resume c (set_ticks S w)).
  assert (Hwc : R w wc.1 ∧ safe I R wc.2).
  { subst wc. destruct b; simpl in Hsafe.
    - assert (Hs : R (set_ticks S w) (emit (EvStart t) (set_ticks S w)))
        by exact (proj1 (Hok _)).
      destruct (safe_advance I R HR c (emit (EvStart t) (set_ticks S w))) as [H1 H2];
        [by eapply (steps_inv _ _ HR)|done|].
      split; [|done].
      eapply (steps_trans _ _ HR); [apply Htick|].
      eapply (steps_trans _ _ HR); [exact Hs|exact H1].
    - destruct (safe_resume I R HR c (set_ticks S w)) as [H1 H2]; [done..|].
      split; [|done]. eapply (steps_trans _ _ HR); [apply Htick|exact H1]. }
  destruct Hwc as [Hwc1 Hwc2].
  assert (Hiwc : I wc.1) by exact (steps_inv _ _ HR _ _ Hw Hwc1).
  destruct wc.2 as [a|e| |f k|f k] eqn:Hc; cbn [fst snd]; try done.
  - eapply (steps_trans _ _ HR); [exact Hwc1|].
    eapply (steps_trans _ _ HR); [exact (proj1 (proj2 (Hok wc.1)))|].
    apply IH.
    + eapply (steps_inv _ _ HR); [exact Hiwc|exact (proj1 (proj2 (Hok wc.1)))].
    + apply Forall_insert; [done|]. split; [done|exact Hok].
  - eapply (steps_trans _ _ HR); [exact Hwc1|]. exact (proj2 (proj2 (Hok wc.1)) e).
  - eapply (steps_trans _ _ HR); [exact Hwc1|].
    apply IH; [done|]. apply Forall_insert; [done|]. split; [|exact Hok].
    exact Hwc2.
Qed.

Context (Q : world → Prop) (HQ : ∀ w w', Q w → R w w' → Q w').

Lemma advance_ensures (c : coro A) : ∀ w,
  I w → safe I R c → ensures I Q c →
  match (advance c w).2 with
  | Ret _ => Q (advance c w).1
  | c' => ensures I Q c'
  end.
Proof.
  induction c as [| | |f k IH|f k IH]; simpl; intros w Hw Hs He; try done.
  destruct (Hs w Hw) as [Hf Hk]. specialize (He w Hw).
  specialize (IH w (f w) (steps_inv _ _ HR _ _ Hw Hf) Hk).
  destruct (k w) as [a|e| |f' k'|f' k']; simpl in *; auto; by apply IH.
Qed.

Lemma resume_ensures (c : coro A) (w : world) :
  I w → safe I R c → ensures I Q c →
  match (resume c w).2 with
  | Ret _ => Q (resume c w).1
  | c' => ensures I Q c'
  end.
Proof.
  intros Hw Hs He. destruct c as [a|e| |f k|f k]; try (by apply advance_ensures).
  simpl in *. destruct (Hs w Hw) as [Hf Hk]. specialize (He w Hw).
  pose proof (advance_ensures (k w) (f w) (steps_inv _ _ HR _ _ Hw Hf) Hk) as Hadv.
  destruct (k w) as [a|e| |f' k'|f' k']; simpl in *; auto; by apply Hadv.
Qed.

(** A batch that returns leaves a world where holds what one of its tasks
    ensures, when the steps of the batch keep it. *)
Lemma gather_loop_ensures (i0 : nat) (fuel : nat) : ∀ (slots : list (task_id * slot A)) w,
  I w →
  Forall (λ ts, slot_safe I R ts.2 ∧ task_ok R ts.1) slots →
  (∃ t sl, slots !! i0 = Some (t, sl) ∧ slot_ensures I Q sl w) →
  (∃ l, (gather_loop fuel sched n slots w).2 = Some (Ok l)) →
  Q (gather_loop fuel sched n slots w).1.
Proof.
  induction fuel as [|fuel IH]; intros slots w Hw Hslots (t0 & sl0 & Hi0 & Hens) [l Hl];
    cbn [gather_loop] in *; [done|].
  destruct (options n slots) as [|o os] eqn:Hopts.
  { cbn [fst snd] in *. destruct (results slots) as [l'|] eqn:Hres; [|done].
    clear -Hres Hi0 Hens. revert i0 l' Hres Hi0.
    induction slots as [|[t' sl'] slots IHs]; intros i0 l' Hres Hi0; [done|].
    simpl in Hres. destruct sl' as [c|c|a]; try done.
    destruct (results slots) as [l''|] eqn:Hres'; [|done].
    destruct i0 as [|i0]; simpl in Hi0.
    - injection Hi0 as <- <-. exact Hens.
    - by eapply IHs. }
  pose proof (nth_mod_elem_of (sched (ticks w)) o os) as Hin.
  rewrite <- Hopts in Hin at 3.
  destruct (nth _ _ _) as [b [[i t] c]].
  apply options_spec in Hin.
  pose proof (proj1 (Forall_lookup _ _) Hslots _ _ Hin) as [Hsafe Hok]. simpl in Hsafe, Hok.
  assert (Hw1 : I (set_ticks S w)) by (eapply (steps_inv _ _ HR); [exact Hw|apply Htick]).
  set (ws := if b then emit (EvStart t) (set_ticks S w) else set_ticks S w).
  assert (Hws : R w ws ∧ I ws).
  { subst ws. destruct b; [|by split].
    assert (Hs : R (set_ticks S w) (emit (EvStart t) (set_ticks S w))) by exact (proj1 (Hok _)).
    split; [eapply (steps_trans _ _ HR); [apply Htick|exact Hs]|].
    by eapply (steps_inv _ _ HR). }
  destruct Hws as [Hws Hiws].
  set (wc := if b then advance c (emit (EvStart t) (set_ticks S w))
             else resume c (set_ticks S w)) in *.
  assert (Hsafe' : safe I R c) by (by destruct b).
  assert (Hwc : R w wc.1 ∧ safe I R wc.2
                ∧ (ensures I Q c →
                   match wc.2 with Ret _ => Q wc.1 | c' => ensures I Q c' end)).
  { subst wc ws. destruct b.
    - destruct (safe_advance I R HR c _ Hiws Hsafe') as [H1 H2].
      split; [by eapply (steps_trans _ _ HR)|]. split; [done|].
      intros He. by apply advance_ensures.
    - destruct (safe_resume I R HR c _ Hiws Hsafe') as [H1 H2].
      split; [by eapply (steps_trans _ _ HR)|]. split; [done|].
      intros He. by apply resume_ensures. }
  destruct Hwc as (Hwc1 & Hwc2 & Hwc3).
  assert (Hiwc : I wc.1) by exact (steps_inv _ _ HR _ _ Hw Hwc1).
  assert (Hlt : (i0 < length slots)%nat) by (by eapply lookup_lt_Some).
  destruct wc.2 as [a|e| |f k|f k] eqn:Hc; cbn [fst snd] in *; try done.
  - assert (Hfin : R wc.1 (emit (EvFinish t) wc.1)) by exact (proj1 (proj2 (Hok wc.1))).
    apply IH.
    + by eapply (steps_inv _ _ HR).
    + apply Forall_insert; [done|]. split; [done|exact Hok].
    + destruct (decide (i = i0)) as [->|Hne].
      * exists t, (Finished a). split; [by rewrite list_lookup_insert_eq|].
        simpl. rewrite Hin in Hi0. injection Hi0 as <- <-.
        eapply HQ; [|exact Hfin]. apply Hwc3. by destruct b.
      * exists t0, sl0. split; [by rewrite list_lookup_insert_ne|].
        destruct sl0; simpl in *; try done.
        eapply HQ; [|exact Hfin]. by eapply HQ.
    + by exists l.
  - apply IH; [done| | |by exists l].
    + apply Forall_insert; [done|]. split; [exact Hwc2|exact Hok].
    + destruct (decide (i = i0)) as [->|Hne].
      * exists t, (Running (Await f k)). split; [by rewrite list_lookup_insert_eq|].
        simpl. rewrite Hin in Hi0. injection Hi0 as <- <-.
        apply Hwc3. by destruct b.
      * exists t0, sl0. split; [by rewrite list_lookup_insert_ne|].
        destruct sl0; simpl in *; try done. by eapply HQ.
Qed.

Lemma gather_with_concurrency_respects (fuel : nat) (tasks : list (task_id * coro A)) :
  Forall (λ tc, safe I R tc.2 ∧ task_ok R tc.1) tasks →
  respects I R (gather_with_concurrency fuel sched n tasks).
Proof.
  intros Htasks w Hw. unfold gather_with_concurrency.
  apply gather_loop_respects; [done|].
  apply Forall_fmap. eapply Forall_impl; [exact Htasks|]. by intros [t c].
Qed.
End gather_respects.

(** ** The driver, for every schedule *)

Section respects_facts.
Context (I : world → Prop) (R : world → world → Prop) (HR : steps I R).

Lemma respects_ret {A} (a : A) : respects I R (m_ret a).
Proof. intros w _. apply HR. Qed.

Lemma respects_and_then {A B} (m : M A) (k : A → M B) :
  respects I R m → (∀ a, respects I R (k a)) → respects I R (and_then m k).
Proof.
  intros Hm Hk w Hw. unfold and_then. specialize (Hm w Hw).
  destruct (m w) as [w' [[a|e]|]]; cbn [fst] in *; try done.
  eapply (steps_trans _ _ HR); [exact Hm|]. apply Hk. by eapply (steps_inv _ _ HR).
Qed.

Lemma respects_for_each_M {X} (l : list X) (body : X → M unit) :
  (∀ x, respects I R (body x)) → respects I R (for_each_M l body).
Proof.
  intros Hbody. induction l as [|x l IH]; simpl; [apply respects_ret|].
  apply respects_and_then; auto.
Qed.

Lemma respects_run {A} (c : coro A) : safe I R c → respects I R (run c).
Proof. intros Hc w Hw. by apply (run_safe I R HR). Qed.

Lemma respects_await_task {A} (t : task_id) (c : coro A) :
  task_ok R t → safe I R c → respects I R (await_task t c).
Proof.
  intros Hok Hc w Hw. unfold await_task.
  assert (Hs : R w (emit (EvStart t) w)) by apply Hok.
  pose proof (run_safe I R HR c (emit (EvStart t) w) (steps_inv _ _ HR _ _ Hw Hs) Hc) as Hrun.
  destruct (run c (emit (EvStart t) w)) as [w' [[a|e]|]]; cbn [fst] in *.
  - eapply (steps_trans _ _ HR); [exact Hs|].
    eapply (steps_trans _ _ HR); [exact Hrun|]. exact (proj1 (proj2 (Hok w'))).
  - eapply (steps_trans _ _ HR); [exact Hs|].
    eapply (steps_trans _ _ HR); [exact Hrun|]. exact (proj2 (proj2 (Hok w')) e).
  - eapply (steps_trans _ _ HR); [exact Hs|exact Hrun].
Qed.

Context (Htick : ∀ w, R w (set_ticks S w)) (fuel : nat) (sched : nat → nat).

Lemma respects_channel_batch (parallel : nat) (task : nat → nat → task_id * coro unit)
    (ci : nat) :
  (∀ w pi, I w → (pi < length (channel_programs (get_channel w ci)))%nat →
     safe I R (task ci pi).2 ∧ task_ok R (task ci pi).1) →
  respects I R (channel_batch fuel sched parallel task ci).
Proof.
  intros Htask w Hw. unfold channel_batch.
  destruct (programs (get_channel w ci)) as [ps|] eqn:Hps; [|apply (steps_refl _ _ HR)].
  apply respects_and_then; [|intros; apply respects_ret|done].
  apply gather_with_concurrency_respects; [done..|].
  apply Forall_lookup. intros pi tc Hpi.
  rewrite list_lookup_imap in Hpi.
  destruct (ps !! pi) as [p|] eqn:Hp; [|done]. injection Hpi as <-.
  apply (Htask w); [done|]. unfold channel_programs. rewrite Hps. simpl.
  by eapply lookup_lt_Some.
Qed.

Lemma respects_per_channel (parallel : nat) (task : nat → nat → task_id * coro unit) :
  (∀ w ci pi, I w → (pi < length (channel_programs (get_channel w ci)))%nat →
     safe I R (task ci pi).2 ∧ task_ok R (task ci pi).1) →
  respects I R (per_channel fuel sched parallel task).
Proof.
  intros Htask w Hw. unfold per_channel.
  apply respects_for_each_M; [|done]. intros ci. apply respects_channel_batch. eauto.
Qed.
End respects_facts.

(** Every step of the stages after FetchPrograms is a step of [R], whatever
    the schedule and the fuel. *)
Lemma enrich_and_emit_respects (E : env) (I : world → Prop)
    (R : world → world → Prop) (fuel : nat) (sched : nat → nat) (parallel : nat)
    (create_archive : bool) (images_size images_quality : Z) (base_url : string) :
  pipeline_ok E I R images_size images_quality base_url →
  respects I R (enrich_and_emit E fuel sched parallel create_archive
                  images_size images_quality base_url).
Proof.
  intros [HR Htick Hprograms Hdetail Hcast Himages Htags Hrmtree Hemit Harchive].
  unfold enrich_and_emit.
  repeat (apply respects_and_then; [done| |intros _]).
  - by apply respects_per_channel.
  - by apply respects_per_channel.
  - apply respects_run; [done|]. by apply safe_write.
  - by apply respects_per_channel.
  - apply respects_await_task; [done|apply Htags..].
  - apply respects_run; [done|]. by apply safe_write.
  - destruct create_archive; [|by apply respects_ret].
    apply respects_run; [done|]. by apply safe_write.
Qed.

(** Every step of the run is a step of [R], whatever the schedule and the
    fuel. *)
Theorem download_and_make_epg_loaded_respects (E : env) (I : world → Prop)
    (R : world → world → Prop) (fuel : nat) (sched : nat → nat) (parallel : nat)
    (create_archive : bool) (images_size images_quality : Z) (base_url : string) :
  pipeline_ok E I R images_size images_quality base_url →
  respects I R (download_and_make_epg_loaded E fuel sched parallel create_archive
                  images_size images_quality base_url).
Proof.
  intros Hok w Hw. pose proof (pk_steps _ _ _ _ _ _ Hok) as HR.
  unfold download_and_make_epg_loaded.
  match goal with |- R w (?m w).1 => cut (respects I R m); [by intros H; apply H|] end.
  apply respects_and_then; [done| |intros _; by apply enrich_and_emit_respects].
  apply gather_with_concurrency_respects; [done|apply Hok|].
  apply Forall_lookup. intros ci tc Hci. rewrite list_lookup_imap in Hci.
  destruct (channels w !! ci); [|done]. injection Hci as <-. apply Hok.
Qed.

(** ** The trace of a batch *)

Lemma quiet_steps (s : nat) : steps always (quiet s).
Proof.
  split; [| |done].
  - intros w. exists []. by rewrite app_nil_r.
  - intros w1 w2 w3 (s1 & H1 & F1) (s2 & H2 & F2). exists (s1 ++ s2).
    split; [by rewrite H2, H1, app_assoc|by apply Forall_app].
Qed.

Lemma quiet_frame (s : nat) (w w' : world) : trace w' = trace w → quiet s w w'.
Proof. intros H. exists []. by rewrite app_nil_r. Qed.

Lemma quiet_admits (E : env) (s : nat) : admits_fetching E (quiet s).
Proof. split; intros; by apply quiet_frame. Qed.

Lemma no_raise_nil : no_raise [].
Proof. intros t e H. by apply elem_of_nil in H. Qed.

Lemma no_raise_app (s1 s2 : list event) : no_raise s1 → no_raise s2 → no_raise (s1 ++ s2).
Proof. intros H1 H2 t e [H|H]%elem_of_app; [by eapply H1|by eapply H2]. Qed.

Lemma no_raise_plain (seg : list event) (s : nat) :
  Forall (λ ev, phase ev = s ∧ plain ev) seg → no_raise seg.
Proof.
  intros H t e Hin. apply (proj1 (Forall_forall _ _) H) in Hin as [_ Hp]. done.
Qed.

Lemma no_raise_singleton (ev : event) : (∀ t e, ev ≠ EvRaise t e) → no_raise [ev].
Proof. intros H t e Hin. apply list_elem_of_singleton in Hin. by eapply H. Qed.

Section gather_trace.
Context {A : Type} (s : nat) (sched : nat → nat) (n : nat).

(** The events of a batch of tasks of stage [s]: they are of phase [s]; a
    task starts only if it was waiting; when the batch returns every task
    has returned; an [EvRaise] is the last event, of a batch that raises. *)
Lemma gather_loop_trace (fuel : nat) : ∀ (slots : list (task_id * slot A)) w,
  Forall (λ ts, slot_safe always (quiet s) ts.2 ∧ stage_of ts.1 = s) slots →
  ∃ seg, trace (gather_loop fuel sched n slots w).1 = trace w ++ seg
    ∧ Forall (λ ev, phase ev = s) seg
    ∧ (∀ t, EvStart t ∈ seg → ∃ i c, slots !! i = Some (t, Waiting c))
    ∧ match (gather_loop fuel sched n slots w).2 with
      | Some (Ok _) =>
          (∀ i t sl, slots !! i = Some (t, sl) → (∃ a, sl = Finished a) ∨ EvFinish t ∈ seg)
          ∧ no_raise seg
      | Some (Exc e) => ∃ t seg', seg = seg' ++ [EvRaise t e] ∧ no_raise seg'
      | None => no_raise seg
      end.
Proof.
  induction fuel as [|fuel IH]; intros slots w Hslots; cbn [gather_loop].
  { exists []. rewrite app_nil_r. cbn [fst snd]. split; [done|]. split; [done|].
    split; [intros t H; by apply elem_of_nil in H|]. apply no_raise_nil. }
  destruct (options n slots) as [|o os] eqn:Hopts.
  { exists []. rewrite app_nil_r. cbn [fst snd]. split; [done|]. split; [done|].
    split; [intros t H; by apply elem_of_nil in H|].
    destruct (results slots) as [l|] eqn:Hres; [|apply no_raise_nil].
    split; [|apply no_raise_nil]. intros i t sl Hi. left.
    clear -Hres Hi. revert i l Hres Hi.
    induction slots as [|[t' sl'] slots IHs]; intros i l Hres Hi; [done|].
    simpl in Hres. destruct sl' as [c|c|a]; try done.
    destruct i as [|i]; simpl in Hi.
    - injection Hi as <- <-. eauto.
    - destruct (results slots) as [l'|]; [|done]. eapply IHs; eauto. }
  pose proof (nth_mod_elem_of (sched (ticks w)) o os) as Hin.
  rewrite <- Hopts in Hin at 3.
  destruct (nth _ _ _) as [b [[i t] c]].
  apply options_spec in Hin.
  pose proof (proj1 (Forall_lookup _ _) Hslots _ _ Hin) as [Hsafe Hst]. simpl in Hsafe, Hst.
  set (w1 := if b then emit (EvStart t) (set_ticks S w) else set_ticks S w).
  set (wc := if b then advance c (emit (EvStart t) (set_ticks S w))
             else resume c (set_ticks S w)).
  assert (Hwc : quiet s w1 wc.1 ∧ safe always (quiet s) wc.2).
  { subst wc w1. destruct b; simpl in Hsafe.
    - by apply (safe_advance always (quiet s) (quiet_steps s)).
    - by apply (safe_resume always (quiet s) (quiet_steps s)). }
  destruct Hwc as [(seg1 & Hseg1 & Hq1) Hwc2].
  set (pre := (if b then [EvStart t] else []) ++ seg1).
  assert (Hpre : trace wc.1 = trace w ++ pre).
  { rewrite Hseg1. subst w1 pre. destruct b; simpl; by rewrite <- ?app_assoc. }
  assert (Hpre_phase : Forall (λ ev, phase ev = s) pre).
  { subst pre. apply Forall_app. split.
    - destruct b; [|done]. by repeat constructor.
    - eapply Forall_impl; [exact Hq1|]. by intros ev [? _]. }
  assert (Hpre_start : ∀ t', EvStart t' ∈ pre → ∃ i c, slots !! i = Some (t', Waiting c)).
  { subst pre. intros t' [H|H]%elem_of_app.
    - destruct b; [|by apply elem_of_nil in H].
      apply list_elem_of_singleton in H. injection H as ->. eauto.
    - apply (proj1 (Forall_forall _ _) Hq1) in H as [_ Hp]. done. }
  assert (Hpre_raise : no_raise pre).
  { subst pre. apply no_raise_app; [|by eapply no_raise_plain].
    destruct b; [|apply no_raise_nil]. by apply no_raise_singleton. }
  assert (Hupd : ∀ sl', slot_safe always (quiet s) sl' →
            Forall (λ ts, slot_safe always (quiet s) ts.2 ∧ stage_of ts.1 = s)
                   (<[i := (t, sl')]> slots)).
  { intros sl' Hsl'. apply Forall_insert; [done|]. by split. }
  assert (Hwait : ∀ sl' t' j c',
            (∀ c'', sl' ≠ Waiting c'') →
            <[i := (t, sl')]> slots !! j = Some (t', Waiting c') →
            slots !! j = Some (t', Waiting c')).
  { intros sl' t' j c' Hne Hj. destruct (decide (i = j)) as [->|Hij].
    - rewrite list_lookup_insert_eq in Hj by (by eapply lookup_lt_Some).
      injection Hj as <- Hsl. by destruct (Hne c').
    - by rewrite list_lookup_insert_ne in Hj. }
  destruct wc.2 as [a|e| |f k|f k] eqn:Hc; cbn [fst snd].
  - destruct (IH (<[i := (t, Finished a)]> slots) (emit (EvFinish t) wc.1)
                (Hupd (Finished a) I))
      as (seg & Htr & Hph & Hst' & Hres).
    exists (pre ++ EvFinish t :: seg). split.
    { rewrite Htr. simpl. rewrite Hpre. by rewrite <- !app_assoc. }
    split. { apply Forall_app. split; [done|]. by constructor. }
    split.
    { intros t' [H|H]%elem_of_app; [by apply Hpre_start|].
      apply elem_of_cons in H as [H|H]; [done|].
      destruct (Hst' t' H) as (j & c' & Hj). exists j, c'.
      eapply (Hwait (Finished a)); [done|exact Hj]. }
    destruct (gather_loop _ _ _ _ _).2 as [[l|e]|].
    + destruct Hres as [Hfin Hnr]. split.
      * intros j t' sl Hj. destruct (decide (i = j)) as [->|Hij].
        -- right. rewrite Hin in Hj. injection Hj as <- _.
           apply elem_of_app. right. by left.
        -- destruct (Hfin j t' sl) as [?|Hf]; [by rewrite list_lookup_insert_ne|by left|].
           right. apply elem_of_app. right. by right.
      * apply no_raise_app; [done|]. intros t' e' [H|H]%elem_of_cons; [done|by eapply Hnr].
    + destruct Hres as (t' & seg' & -> & Hnr). exists t', (pre ++ EvFinish t :: seg').
      split; [by rewrite <- app_assoc|].
      apply no_raise_app; [done|]. intros t'' e' [H|H]%elem_of_cons; [done|by eapply Hnr].
    + apply no_raise_app; [done|]. intros t' e' [H|H]%elem_of_cons; [done|by eapply Hres].
  - exists (pre ++ [EvRaise t e]). split.
    { simpl. rewrite Hpre. by rewrite <- app_assoc. }
    split. { apply Forall_app. split; [done|]. by repeat constructor. }
    split.
    { intros t' [H|H]%elem_of_app; [by apply Hpre_start|].
      by apply list_elem_of_singleton in H. }
    eauto.
  - exists pre. auto.
  - exists pre. auto.
  - destruct (IH (<[i := (t, Running (Await f k))]> slots) wc.1 (Hupd (Running (Await f k)) Hwc2))
      as (seg & Htr & Hph & Hst' & Hres).
    exists (pre ++ seg). split.
    { rewrite Htr, Hpre. by rewrite <- !app_assoc. }
    split. { by apply Forall_app. }
    split.
    { intros t' [H|H]%elem_of_app; [by apply Hpre_start|].
      destruct (Hst' t' H) as (j & c' & Hj). exists j, c'.
      eapply (Hwait (Running (Await f k))); [done|exact Hj]. }
    destruct (gather_loop _ _ _ _ _).2 as [[l|e]|].
    + destruct Hres as [Hfin Hnr]. split; [|by apply no_raise_app].
      intros j t' sl Hj. destruct (decide (i = j)) as [->|Hij].
      * right. rewrite Hin in Hj. injection Hj as <- _.
        destruct (Hfin j t (Running (Await f k))) as [[a ?]|Hf];
          [by rewrite list_lookup_insert_eq by (by eapply lookup_lt_Some)|done|].
        apply elem_of_app. by right.
      * destruct (Hfin j t' sl) as [?|Hf]; [by rewrite list_lookup_insert_ne|by left|].
        right. apply elem_of_app. by right.
    + destruct Hres as (t' & seg' & -> & Hnr). exists t', (pre ++ seg').
      split; [by rewrite <- app_assoc|]. by apply no_raise_app.
    + by apply no_raise_app.
Qed.
End gather_trace.

(** ** The trace of the stages *)

Lemma sorted_same_phase (s : nat) (seg : list event) :
  Forall (λ ev, phase ev = s) seg → sorted seg.
Proof.
  intros H i j ev ev' Hi Hj _.
  rewrite (proj1 (Forall_lookup _ _) H _ _ Hi), (proj1 (Forall_lookup _ _) H _ _ Hj). done.
Qed.

Lemma sorted_app (seg1 seg2 : list event) (b : nat) :
  sorted seg1 → sorted seg2 →
  Forall (λ ev, (phase ev ≤ b)%nat) seg1 → Forall (λ ev, (b ≤ phase ev)%nat) seg2 →
  sorted (seg1 ++ seg2).
Proof.
  intros H1 H2 F1 F2 i j ev ev' Hi Hj Hij.
  apply lookup_app_Some in Hi as [Hi|[Hi1 Hi2]], Hj as [Hj|[Hj1 Hj2]].
  - by eapply H1.
  - pose proof (proj1 (Forall_lookup _ _) F1 _ _ Hi).
    pose proof (proj1 (Forall_lookup _ _) F2 _ _ Hj2). simpl in *. lia.
  - apply lookup_lt_Some in Hj. lia.
  - eapply H2; [exact Hi2|exact Hj2|lia].
Qed.

Lemma achieved_app_l (N k : nat) (seg1 seg2 : list event) :
  achieved N k seg1 → (∀ t, stage_of t = k → EvStart t ∉ seg2) → achieved N k (seg1 ++ seg2).
Proof.
  intros (H1 & H2 & H3) Hno. split; [|split].
  - intros t Ht [H|H]%elem_of_app; [|by destruct (Hno t Ht)].
    apply elem_of_app. left. by apply H1.
  - intros Hk. apply elem_of_app. left. by apply H2.
  - intros Hk ci Hci. apply elem_of_app. left. by apply H3.
Qed.

Lemma achieved_app_r (N k : nat) (seg1 seg2 : list event) :
  achieved N k seg2 → (∀ t, stage_of t = k → EvStart t ∈ seg1 → EvFinish t ∈ seg1) →
  achieved N k (seg1 ++ seg2).
Proof.
  intros (H1 & H2 & H3) Hdone. split; [|split].
  - intros t Ht [H|H]%elem_of_app; apply elem_of_app; [left; by apply Hdone|right; by apply H1].
  - intros Hk. apply elem_of_app. right. by apply H2.
  - intros Hk ci Hci. apply elem_of_app. right. by apply H3.
Qed.

Lemma staged_ret {A} (N lo hi : nat) (a : A) (w : world) :
  (∀ k, (lo ≤ k ≤ hi)%nat → k ≠ 1%nat ∧ k ≠ 4%nat) → staged N lo hi (m_ret a) w.
Proof.
  intros Hk. exists []. simpl. rewrite app_nil_r. split; [done|]. split; [done|].
  split; [by intros i j ev ev' Hi|]. split; [by intros ev k Hin%elem_of_nil|].
  split; [|apply no_raise_nil]. intros k Hr. destruct (Hk k Hr).
  split; [by intros t _ Hin%elem_of_nil|]. done.
Qed.

(** Two computations in a row, the second at the phases where the first
    ends or at the next ones. *)
Lemma staged_and_then {A B} (N lo1 hi1 lo2 hi2 : nat) (m : M A) (k : A → M B) (w : world) :
  (lo1 ≤ hi1)%nat → (hi1 ≤ lo2 ≤ S hi1)%nat → (lo2 ≤ hi2)%nat →
  staged N lo1 hi1 m w → (∀ a w', staged N lo2 hi2 (k a) w') →
  staged N lo1 hi2 (and_then m k) w.
Proof.
  intros Hr1 Hr12 Hr2 (seg1 & Htr1 & Hph1 & Hso1 & Ha1 & Hres1) Hk.
  unfold staged, and_then. destruct (m w) as [w1 [[a|e]|]] eqn:Hm; cbn [fst snd] in *.
  - destruct (Hk a w1) as (seg2 & Htr2 & Hph2 & Hso2 & Ha2 & Hres2).
    destruct Hres1 as [Hb1 Hnr1].
    assert (Hstart1 : ∀ t, (lo2 ≤ stage_of t)%nat → EvStart t ∈ seg1 → EvFinish t ∈ seg1).
    { intros t Ht Hin. pose proof (proj1 (Forall_forall _ _) Hph1 _ Hin) as Hp. simpl in Hp.
      apply (Hb1 (stage_of t)); [lia|done|done]. }
    assert (Hstart2 : ∀ k' t, (k' < lo2)%nat → stage_of t = k' → EvStart t ∉ seg2).
    { intros k' t Hk' Ht Hin.
      pose proof (proj1 (Forall_forall _ _) Hph2 _ Hin) as Hp. simpl in Hp. lia. }
    assert (Hach : ∀ k', (lo1 ≤ k')%nat →
              ((k' < lo2)%nat ∨ achieved N k' seg2) → achieved N k' (seg1 ++ seg2)).
    { intros k' Hlo Hcase. destruct (decide (k' < lo2)%nat) as [Hlt|Hge].
      - apply achieved_app_l; [apply Hb1; lia|]. intros t Ht. by eapply Hstart2.
      - destruct Hcase as [?|Hach2]; [lia|]. apply achieved_app_r; [done|].
        intros t Ht. apply Hstart1. lia. }
    exists (seg1 ++ seg2). split; [by rewrite Htr2, Htr1, app_assoc|].
    split.
    { apply Forall_app. split; (eapply Forall_impl; [eassumption|]); simpl; intros; lia. }
    split.
    { apply (sorted_app _ _ hi1); [done..| |];
        (eapply Forall_impl; [eassumption|]); simpl; intros; lia. }
    split.
    { intros ev k' [Hin|Hin]%elem_of_app Hk'.
      - pose proof (proj1 (Forall_forall _ _) Hph1 _ Hin) as Hp. simpl in Hp.
        apply achieved_app_l; [by apply (Ha1 ev)|]. intros t Ht. eapply Hstart2; [|done]. lia.
      - apply Hach; [lia|]. destruct (decide (k' < lo2)%nat); [by left|right].
        apply (Ha2 ev); [done|lia]. }
    destruct (k a w1).2 as [[b|e]|].
    + destruct Hres2 as [Hb2 Hnr2]. split; [|by apply no_raise_app].
      intros k' Hk'. apply Hach; [lia|]. destruct (decide (k' < lo2)%nat); [by left|right].
      apply Hb2. lia.
    + destruct Hres2 as [Hnr2|(t & seg' & -> & Hnr2)].
      * left. by apply no_raise_app.
      * right. exists t, (seg1 ++ seg'). split; [by rewrite app_assoc|by apply no_raise_app].
    + by apply no_raise_app.
  - exists seg1. split; [done|]. split.
    { eapply Forall_impl; [eassumption|]. simpl. intros. lia. }
    done.
  - exists seg1. split; [done|]. split.
    { eapply Forall_impl; [eassumption|]. simpl. intros. lia. }
    done.
Qed.

Lemma staged_for_each_M {X} (N s : nat) (l : list X) (body : X → M unit) :
  s ≠ 1%nat → s ≠ 4%nat →
  (∀ x w, staged N s s (body x) w) → ∀ w, staged N s s (for_each_M l body) w.
Proof.
  intros H1 H4 Hbody. induction l as [|x l IH]; intros w; simpl.
  - apply staged_ret. intros k Hk. split; lia.
  - apply (staged_and_then N s s s s); auto; lia.
Qed.

(** A batch of tasks of one stage. *)
Lemma staged_gather_with_concurrency {A} (N s fuel : nat) (sched : nat → nat) (n : nat)
    (tasks : list (task_id * coro A)) (w : world) :
  s ≠ 4%nat →
  Forall (λ tc, safe always (quiet s) tc.2 ∧ stage_of tc.1 = s) tasks →
  (s = 1%nat → ∀ ci, (ci < N)%nat → TPrograms ci ∈ tasks.*1) →
  staged N s s (gather_with_concurrency fuel sched n tasks) w.
Proof.
  intros H4 Htasks Hcov. unfold gather_with_concurrency.
  set (slots := (λ tc, (tc.1, Waiting tc.2)) <$> tasks).
  destruct (gather_loop_trace s sched n fuel slots w) as (seg & Htr & Hph & Hst & Hres).
  { subst slots. apply Forall_fmap. eapply Forall_impl; [exact Htasks|]. by intros [t c]. }
  assert (Hwaiting : ∀ i t sl, slots !! i = Some (t, sl) → ∀ a, sl ≠ Finished a).
  { subst slots. intros i t sl Hi a. rewrite list_lookup_fmap in Hi.
    destruct (tasks !! i) as [[t' c']|]; [|done]. simpl in Hi. by injection Hi as <- <-. }
  exists seg. split; [done|]. split.
  { eapply Forall_impl; [exact Hph|]. simpl. intros ev ->. lia. }
  split; [by eapply sorted_same_phase|]. split.
  { intros ev k' Hin Hk'. pose proof (proj1 (Forall_forall _ _) Hph _ Hin). simpl in *. lia. }
  destruct (gather_loop _ _ _ _ _).2 as [[l|e]|]; [|by right|done].
  destruct Hres as [Hfin Hnr]. split; [|done].
  intros k' Hk'. assert (k' = s) as -> by lia. split; [|split; [done|]].
  - intros t _ Hin. destruct (Hst t Hin) as (i & c & Hi).
    destruct (Hfin i t _ Hi) as [[a Ha]|?]; [|done]. by destruct (Hwaiting i t _ Hi a).
  - intros Hs ci Hci. specialize (Hcov Hs ci Hci).
    apply list_elem_of_fmap in Hcov as ([t c] & Ht & Hin). simpl in Ht. subst t.
    apply list_elem_of_lookup in Hin as [i Hi].
    assert (Hsl : slots !! i = Some (TPrograms ci, Waiting c)).
    { subst slots. by rewrite list_lookup_fmap, Hi. }
    destruct (Hfin i _ _ Hsl) as [[a Ha]|?]; [done|done].
Qed.

Section quiet_tasks.
Context (E : env).

Lemma quiet_download_programs ci : safe always (quiet 1) (download_programs E ci).
Proof.
  apply safe_download_programs; [apply quiet_steps|apply quiet_admits|].
  intros. by apply quiet_frame.
Qed.

Lemma quiet_download_program_detail ci pi :
  safe always (quiet 2) (download_program_detail E ci pi).
Proof.
  apply safe_download_program_detail; [apply quiet_steps|apply quiet_admits|].
  intros. by apply quiet_frame.
Qed.

Lemma quiet_download_program_cast ci pi :
  safe always (quiet 3) (download_program_cast E ci pi).
Proof.
  apply safe_download_program_cast; [apply quiet_steps|apply quiet_admits|].
  intros. by apply quiet_frame.
Qed.

Lemma quiet_download_program_images ci pi size quality base :
  safe always (quiet 5) (download_program_images E ci pi size quality base).
Proof.
  apply safe_download_program_images; [apply quiet_steps|apply quiet_admits| |].
  - intros. by apply quiet_frame.
  - intros path b w _. exists [EvWrite path]. split; [done|]. by repeat constructor.
Qed.

Lemma quiet_download_program_tags : safe always (quiet 6) (download_program_tags E).
Proof.
  apply safe_download_program_tags; [apply quiet_steps|apply quiet_admits|].
  intros. by apply quiet_frame.
Qed.
End quiet_tasks.

Lemma staged_channel_batch (N s fuel : nat) (sched : nat → nat) (parallel : nat)
    (task : nat → nat → task_id * coro unit) (ci : nat) (w : world) :
  s ≠ 1%nat → s ≠ 4%nat →
  (∀ ci pi, safe always (quiet s) (task ci pi).2 ∧ stage_of (task ci pi).1 = s) →
  staged N s s (channel_batch fuel sched parallel task ci) w.
Proof.
  intros H1 H4 Htask. unfold staged, channel_batch.
  destruct (programs (get_channel w ci)) as [ps|].
  - apply (staged_and_then N s s s s); [lia..| |].
    + apply staged_gather_with_concurrency; [done| |done].
      apply Forall_lookup. intros pi tc Hpi. rewrite list_lookup_imap in Hpi.
      destruct (ps !! pi); [|done]. injection Hpi as <-. apply Htask.
    + intros _ w'. apply staged_ret. intros k Hk. split; lia.
  - exists []. cbn [fst snd]. rewrite app_nil_r. split; [done|]. split; [done|].
    split; [by intros i j ev ev' Hi|]. split; [by intros ev k Hin%elem_of_nil|].
    left. apply no_raise_nil.
Qed.

Lemma staged_per_channel (N s fuel : nat) (sched : nat → nat) (parallel : nat)
    (task : nat → nat → task_id * coro unit) (w : world) :
  s ≠ 1%nat → s ≠ 4%nat →
  (∀ ci pi, safe always (quiet s) (task ci pi).2 ∧ stage_of (task ci pi).1 = s) →
  staged N s s (per_channel fuel sched parallel task) w.
Proof.
  intros H1 H4 Htask. unfold staged, per_channel.
  apply (staged_for_each_M N s); [done..|]. intros ci w'. by apply staged_channel_batch.
Qed.

(** A step of the driver that emits the events [evs], all of phase [s]. *)
Lemma staged_write (N s : nat) (f : world → world) (evs : list event) (w : world) :
  trace (f w) = trace w ++ evs →
  Forall (λ ev, phase ev = s ∧ plain ev) evs →
  achieved N s evs →
  staged N s s (run (write f)) w.
Proof.
  intros Htr Hph Hach. exists evs. rewrite run_write. cbn [fst snd].
  split; [done|]. split.
  { eapply Forall_impl; [exact Hph|]. simpl. intros ev [-> _]. lia. }
  split. { apply (sorted_same_phase s). eapply Forall_impl; [exact Hph|]. by intros ev [? _]. }
  split.
  { intros ev k Hin Hk. apply (proj1 (Forall_forall _ _) Hph) in Hin as [Hp _]. lia. }
  split; [|by eapply no_raise_plain]. intros k Hk. by assert (k = s) as -> by lia.
Qed.

Lemma staged_await_task {A} (N : nat) (t : task_id) (c : coro A) (w : world) :
  stage_of t ≠ 1%nat → stage_of t ≠ 4%nat →
  safe always (quiet (stage_of t)) c →
  staged N (stage_of t) (stage_of t) (await_task t c) w.
Proof.
  intros H1 H4 Hc. unfold staged, await_task.
  destruct (run_safe always (quiet (stage_of t)) (quiet_steps _) c (emit (EvStart t) w) I Hc)
    as (seg & Htr & Hq).
  simpl in Htr.
  assert (Hph : Forall (λ ev, phase ev = stage_of t) seg)
    by (eapply Forall_impl; [exact Hq|]; by intros ev [? _]).
  assert (Hnr : no_raise seg) by (by eapply no_raise_plain).
  assert (Hgen : ∀ evs : list event,
            Forall (λ ev, phase ev = stage_of t) evs →
            Forall (λ ev, (stage_of t ≤ phase ev ≤ stage_of t)%nat) evs
            ∧ sorted evs
            ∧ (∀ ev k, ev ∈ evs → (stage_of t ≤ k < phase ev)%nat → achieved N k evs)).
  { intros evs Hevs. split.
    { eapply Forall_impl; [exact Hevs|]. simpl. intros ev ->. lia. }
    split; [by eapply sorted_same_phase|].
    intros ev k Hin Hk. apply (proj1 (Forall_forall _ _) Hevs) in Hin. lia. }
  destruct (run c (emit (EvStart t) w)) as [w' [[a|e]|]]; cbn [fst snd] in *.
  - exists (EvStart t :: seg ++ [EvFinish t]).
    split; [simpl; rewrite Htr; by rewrite <- !app_assoc|].
    assert (Hall : Forall (λ ev, phase ev = stage_of t) (EvStart t :: seg ++ [EvFinish t])).
    { constructor; [done|]. apply Forall_app. split; [done|]. by repeat constructor. }
    destruct (Hgen _ Hall) as (? & ? & ?). do 3 (split; [done|]).
    split.
    + intros k Hk. assert (k = stage_of t) as -> by lia. split; [|done].
      intros t' Ht' [Hin|Hin]%elem_of_cons.
      * injection Hin as ->. right. apply elem_of_app. right. by left.
      * apply elem_of_app in Hin as [Hin|Hin%list_elem_of_singleton]; [|done].
        apply (proj1 (Forall_forall _ _) Hq) in Hin as [_ Hp]. done.
    + intros t' e' [Hin|Hin]%elem_of_cons; [done|].
      apply elem_of_app in Hin as [Hin|Hin%list_elem_of_singleton]; [by eapply Hnr|done].
  - exists (EvStart t :: seg ++ [EvRaise t e]).
    split; [simpl; rewrite Htr; by rewrite <- !app_assoc|].
    assert (Hall : Forall (λ ev, phase ev = stage_of t) (EvStart t :: seg ++ [EvRaise t e])).
    { constructor; [done|]. apply Forall_app. split; [done|]. by repeat constructor. }
    destruct (Hgen _ Hall) as (? & ? & ?). do 3 (split; [done|]).
    right. exists t, (EvStart t :: seg). split; [done|].
    intros t' e' [Hin|Hin]%elem_of_cons; [done|by eapply Hnr].
  - exists (EvStart t :: seg). split; [simpl; rewrite Htr; by rewrite <- !app_assoc|].
    assert (Hall : Forall (λ ev, phase ev = stage_of t) (EvStart t :: seg))
      by (by constructor).
    destruct (Hgen _ Hall) as (? & ? & ?). do 3 (split; [done|]).
    intros t' e' [Hin|Hin]%elem_of_cons; [done|by eapply Hnr].
Qed.

(** The trace of a run, once the channels are loaded. *)
Lemma staged_download_and_make_epg_loaded (E : env) (fuel : nat) (sched : nat → nat)
    (parallel : nat) (create_archive : bool) (size quality : Z) (base : string) (w : world) :
  staged (length (channels w)) 1 7
    (download_and_make_epg_loaded E fuel sched parallel create_archive size quality base) w.
Proof.
  unfold staged, download_and_make_epg_loaded, enrich_and_emit.
  set (N := length (channels w)).
  apply (staged_and_then N 1 1 2 7); [lia..| |intros _ w1].
  { apply staged_gather_with_concurrency; [done| |].
    - apply Forall_lookup. intros ci tc Hci. rewrite list_lookup_imap in Hci.
      destruct (channels w !! ci); [|done]. injection Hci as <-.
      split; [apply quiet_download_programs|done].
    - intros _ ci Hci. apply list_elem_of_fmap.
      destruct (lookup_lt_is_Some_2 (channels w) ci Hci) as [c Hc].
      exists (TPrograms ci, download_programs E ci). split; [done|].
      apply list_elem_of_lookup. exists ci. by rewrite list_lookup_imap, Hc. }
  apply (staged_and_then N 2 2 3 7); [lia..| |intros _ w2].
  { apply staged_per_channel; [done..|]. intros ci pi.
    split; [apply quiet_download_program_detail|done]. }
  apply (staged_and_then N 3 3 4 7); [lia..| |intros _ w3].
  { apply staged_per_channel; [done..|]. intros ci pi.
    split; [apply quiet_download_program_cast|done]. }
  apply (staged_and_then N 4 4 5 7); [lia..| |intros _ w4].
  { apply (staged_write N 4 _ [EvRmtree]); [done|by repeat constructor|].
    split; [by intros [] ?|]. split; [intros _; by left|done]. }
  apply (staged_and_then N 5 5 6 7); [lia..| |intros _ w5].
  { apply staged_per_channel; [done..|]. intros ci pi.
    split; [apply quiet_download_program_images|done]. }
  apply (staged_and_then N 6 6 7 7); [lia..| |intros _ w6].
  { apply (staged_await_task N TTags); [done..|]. apply quiet_download_program_tags. }
  apply (staged_and_then N 7 7 7 7); [lia..| |intros _ w7].
  { apply (staged_write N 7 _ [EvEmit]); [done|by repeat constructor|].
    split; [by intros [] ?|]. done. }
  destruct create_archive.
  - apply (staged_write N 7 _ []); [by rewrite app_nil_r|done|].
    split; [by intros t _ Hin%elem_of_nil|]. done.
  - apply staged_ret. intros k Hk. split; lia.
Qed.

(** The trace of a run. *)
Lemma staged_download_and_make_epg (E : env) (fuel : nat) (sched : nat → nat)
    (catalog : list Channel) (parallel : nat) (create_archive : bool) (size quality : Z)
    (base : string) (w : world) :
  staged (length catalog) 1 7
    (download_and_make_epg E fuel sched catalog parallel create_archive size quality base) w.
Proof.
  unfold staged, download_and_make_epg, and_then. rewrite run_write.
  destruct (staged_download_and_make_epg_loaded E fuel sched parallel create_archive size
              quality base (set_channels (λ _, catalog) w)) as (seg & Htr & Hrest).
  exists seg. split; [exact Htr|exact Hrest].
Qed.

(** ** What a run respects *)

Lemma run_rel_frame (w w' : world) :
  trace w' = trace w → posters w' = posters w → xmltv w' = xmltv w → run_rel w w'.
Proof.
  intros Ht Hp Hx. exists []. rewrite app_nil_r. split; [done|]. split; [|done].
  intros path Hin. left. rewrite <- Hp. split; [done|]. by intros H%elem_of_nil.
Qed.

Lemma run_rel_event (ev : event) (w : world) :
  ev ≠ EvRmtree → ev ≠ EvEmit → run_rel w (emit ev w).
Proof.
  intros H1 H2. exists [ev]. split; [done|]. split; [|done].
  intros path Hin. left. split; [done|]. intros Hev%list_elem_of_singleton. congruence.
Qed.

Lemma run_rel_steps : steps always run_rel.
Proof.
  split; [| |done].
  - intros w. by apply run_rel_frame.
  - intros w1 w2 w3 (s1 & Ht1 & Hp1 & Hx1) (s2 & Ht2 & Hp2 & Hx2).
    exists (s1 ++ s2). split; [by rewrite Ht2, Ht1, app_assoc|]. split.
    + intros path Hin. destruct (Hp2 path Hin) as [[Hin2 Hno2]|Hw2].
      * destruct (Hp1 path Hin2) as [[Hin1 Hno1]|Hw1].
        -- left. split; [done|]. by intros [?|?]%elem_of_app.
        -- right. apply elem_of_app. by left.
      * right. apply elem_of_app. by right.
    + intros Hno. rewrite Hx2, Hx1; [done|..]; intros Hin; apply Hno, elem_of_app; auto.
Qed.

Lemma run_rel_admits (E : env) : admits_fetching E run_rel.
Proof. split; intros; by apply run_rel_frame. Qed.

Lemma run_rel_task_ok (t : task_id) : task_ok run_rel t.
Proof. intros w. repeat split; intros; by apply run_rel_event. Qed.

Lemma run_rel_pipeline_ok (E : env) (size quality : Z) (base : string) :
  pipeline_ok E always run_rel size quality base.
Proof.
  pose proof run_rel_steps as HS. pose proof (run_rel_admits E) as HA.
  split; try done.
  - intros w. by apply run_rel_frame.
  - intros ci. split; [|apply run_rel_task_ok].
    apply safe_download_programs; [apply HS|done|]. intros. by apply run_rel_frame.
  - intros w ci pi _ _. split; [|apply run_rel_task_ok].
    apply safe_download_program_detail; [apply HS|done|]. intros. by apply run_rel_frame.
  - intros w ci pi _ _. split; [|apply run_rel_task_ok].
    apply safe_download_program_cast; [apply HS|done|]. intros. by apply run_rel_frame.
  - intros w ci pi _ _. split; [|apply run_rel_task_ok].
    apply safe_download_program_images; [apply HS|done| |].
    + intros. by apply run_rel_frame.
    + intros path b w' _. exists [EvWrite path]. split; [done|]. split; [|done].
      intros path' Hin. simpl in Hin. destruct (decide (path' = path)) as [->|Hne].
      * right. by left.
      * rewrite lookup_insert_ne in Hin by done. left. split; [done|].
        by intros [=]%list_elem_of_singleton.
  - split; [|apply run_rel_task_ok].
    apply safe_download_program_tags; [apply HS|done|]. intros. by apply run_rel_frame.
  - intros w _. exists [EvRmtree]. split; [done|]. split; [|done].
    intros path Hin. simpl in Hin. rewrite lookup_empty in Hin. by destruct Hin.
  - intros w _. exists [EvEmit]. split; [done|]. split.
    + intros path Hin. left. split; [done|]. by intros [=]%list_elem_of_singleton.
    + intros Hno. destruct Hno. by left.
  - intros w _. by apply run_rel_frame.
Qed.

Lemma run_rel_download_and_make_epg (E : env) (fuel : nat) (sched : nat → nat)
    (catalog : list Channel) (parallel : nat) (create_archive : bool) (size quality : Z)
    (base : string) (w : world) :
  run_rel w (download_and_make_epg E fuel sched catalog parallel create_archive size quality
               base w).1.
Proof.
  unfold download_and_make_epg, and_then. rewrite run_write.
  pose proof (download_and_make_epg_loaded_respects E always run_rel fuel sched parallel
                create_archive size quality base (run_rel_pipeline_ok E size quality base)
                (set_channels (λ _, catalog) w) I) as Hrel.
  destruct (download_and_make_epg_loaded _ _ _ _ _ _ _ _ _) as [w' [[[]|e]|]];
    cbn [fst] in *;
    (eapply (steps_trans _ _ run_rel_steps); [|exact Hrel]); by apply run_rel_frame.
Qed.

(** The trace of a run and what the run leaves behind, whatever the schedule
    and the fuel. *)
Lemma run_trace (E : env) (fuel : nat) (sched : nat → nat)
    (catalog : list Channel) (parallel : nat) (create_archive : bool) (size quality : Z)
    (base : string) (w : world) :
  let r := download_and_make_epg E fuel sched catalog parallel create_archive size quality
             base w in
  ∃ seg, trace r.1 = trace w ++ seg
    ∧ Forall (λ ev, (1 ≤ phase ev ≤ 7)%nat) seg
    ∧ sorted seg
    ∧ (∀ ev k, ev ∈ seg → (1 ≤ k < phase ev)%nat → achieved (length catalog) k seg)
    ∧ match r.2 with
      | Some (Ok _) => (∀ k, (1 ≤ k ≤ 7)%nat → achieved (length catalog) k seg) ∧ no_raise seg
      | Some (Exc e) =>
          no_raise seg ∨ ∃ t seg', seg = seg' ++ [EvRaise t e] ∧ no_raise seg'
      | None => no_raise seg
      end
    ∧ (∀ path, is_Some (posters r.1 !! path) →
         (is_Some (posters w !! path) ∧ EvRmtree ∉ seg) ∨ EvWrite path ∈ seg)
    ∧ (EvEmit ∉ seg → xmltv r.1 = xmltv w).
Proof.
  intros r.
  destruct (staged_download_and_make_epg E fuel sched catalog parallel create_archive size
              quality base w) as (seg & Htr & Hph & Hso & Ha & Hres).
  destruct (run_rel_download_and_make_epg E fuel sched catalog parallel create_archive size
              quality base w) as (seg' & Htr' & Hposters & Hxmltv).
  fold r in Htr, Hres, Htr', Hposters, Hxmltv.
  assert (seg' = seg) as -> by (apply (app_inv_head (trace w)); congruence).
  exists seg. done.
Qed.

Lemma stage_of_bounds (t : task_id) : (1 ≤ stage_of t ≤ 6)%nat.
Proof. destruct t; simpl; lia. Qed.

(** In a sorted trace, what is of an earlier phase than an event comes
    before it. *)
Lemma sorted_before (pre post : list event) (ev ev' : event) :
  sorted (pre ++ ev :: post) → ev' ∈ pre ++ ev :: post → (phase ev' < phase ev)%nat →
  ev' ∈ pre.
Proof.
  intros Hso Hin Hlt. apply list_elem_of_lookup in Hin as [j Hj].
  destruct (decide (j < length pre)%nat) as [Hjlt|Hjge].
  - rewrite lookup_app_l in Hj by done. by eapply list_elem_of_lookup_2.
  - exfalso.
    assert (Hi : (pre ++ ev :: post) !! length pre = Some ev).
    { rewrite lookup_app_r by lia. by rewrite Nat.sub_diag. }
    pose proof (Hso _ _ _ _ Hi Hj ltac:(lia)). lia.
Qed.



(** ** Every program of every channel *)

Lemma program_count_set_channel (cj : nat) (f : Channel → Channel) (w : world) (ci : nat) :
  (∀ c, length (channel_programs (f c)) = length (channel_programs c)) →
  program_count (set_channel cj f w) ci = program_count w ci.
Proof.
  intros Hf. unfold program_count, get_channel, set_channel. simpl.
  destruct (decide (cj = ci)) as [->|Hne].
  - by apply (lookup_total_alter_preserved (λ c, length (channel_programs c))).
  - by rewrite list_lookup_total_alter_ne.
Qed.

Lemma program_count_set_program (cj pi : nat) (f : Program → Program) (w : world) (ci : nat) :
  program_count (set_program cj pi f w) ci = program_count w ci.
Proof.
  apply program_count_set_channel. intros c. rewrite channel_programs_alter.
  apply length_alter.
Qed.

Lemma batch_rel_steps : steps always batch_rel.
Proof.
  split; [done| |done]. intros w1 w2 w3 H1 H2 ci. by rewrite H2, H1.
Qed.

Lemma enrich_rel_batch_rel (s : nat) (w w' : world) : enrich_rel s w w' → batch_rel w w'.
Proof. by intros [_ ?]. Qed.

Lemma enrich_rel_steps (s : nat) : steps always (enrich_rel s).
Proof.
  split; [| |done].
  - intros w. split; [apply (quiet_steps s)|done].
  - intros w1 w2 w3 [Hq1 Hc1] [Hq2 Hc2]. split.
    + by eapply (steps_trans _ _ (quiet_steps s)).
    + intros ci. by rewrite Hc2, Hc1.
Qed.

Lemma enrich_rel_frame (s : nat) (w w' : world) :
  trace w' = trace w → channels w' = channels w → enrich_rel s w w'.
Proof.
  intros Ht Hc. split; [by apply quiet_frame|].
  intros ci. unfold program_count, get_channel. by rewrite Hc.
Qed.

Lemma enrich_rel_admits (E : env) (s : nat) : admits_fetching E (enrich_rel s).
Proof. split; intros; by apply enrich_rel_frame. Qed.

Lemma enrich_rel_set_program (s cj pi : nat) (f : Program → Program) (w : world) :
  enrich_rel s w (set_program cj pi f w).
Proof. split; [by apply quiet_frame|]. intros ci. apply program_count_set_program. Qed.

Section enrich_tasks.
Context (E : env).

Lemma enrich_download_program_detail ci pi :
  safe always (enrich_rel 2) (download_program_detail E ci pi).
Proof.
  apply safe_download_program_detail; [apply enrich_rel_steps|apply enrich_rel_admits|].
  intros. apply enrich_rel_set_program.
Qed.

Lemma enrich_download_program_cast ci pi :
  safe always (enrich_rel 3) (download_program_cast E ci pi).
Proof.
  apply safe_download_program_cast; [apply enrich_rel_steps|apply enrich_rel_admits|].
  intros. apply enrich_rel_set_program.
Qed.

Lemma enrich_download_program_images ci pi size quality base :
  safe always (enrich_rel 5) (download_program_images E ci pi size quality base).
Proof.
  apply safe_download_program_images; [apply enrich_rel_steps|apply enrich_rel_admits| |].
  - intros. apply enrich_rel_set_program.
  - intros path b w _. split; [|done].
    exists [EvWrite path]. split; [done|]. by repeat constructor.
Qed.
End enrich_tasks.

Lemma batch_rel_task_ok (t : task_id) : task_ok batch_rel t.
Proof. intros w. repeat split. Qed.

(** A loop [for channel in channels] that returns has seen the task of every
    program of every channel return. *)
Lemma per_channel_covers (s fuel : nat) (sched : nat → nat) (parallel : nat)
    (task : nat → nat → task_id * coro unit) :
  (∀ ci pi, safe always (enrich_rel s) (task ci pi).2 ∧ stage_of (task ci pi).1 = s) →
  ∀ w, (per_channel fuel sched parallel task w).2 = Some (Ok tt) →
  ∃ seg, trace (per_channel fuel sched parallel task w).1 = trace w ++ seg
    ∧ ∀ ci pi, is_Some (program_at w ci pi) → EvFinish (task ci pi).1 ∈ seg.
Proof.
  intros Htask w0. unfold per_channel.
  assert (Hloop : ∀ n a w,
            (∀ ci, program_count w ci = program_count w0 ci) →
            (for_each_M (seq a n) (channel_batch fuel sched parallel task) w).2 = Some (Ok tt) →
            ∃ seg, trace (for_each_M (seq a n) (channel_batch fuel sched parallel task) w).1
                   = trace w ++ seg
              ∧ ∀ ci pi, (a ≤ ci < a + n)%nat → (pi < program_count w0 ci)%nat →
                         EvFinish (task ci pi).1 ∈ seg).
  { induction n as [|n IH]; intros a w Hshape Hok.
    { exists []. simpl. rewrite app_nil_r. split; [done|]. intros ci pi ?. lia. }
    cbn [seq for_each_M] in Hok |- *. unfold and_then in Hok |- *.
    assert (Hbatch : ∀ w1 u, channel_batch fuel sched parallel task a w = (w1, Some (Ok u)) →
              (∀ ci, program_count w1 ci = program_count w ci)
              ∧ ∃ seg1, trace w1 = trace w ++ seg1
                  ∧ ∀ pi, (pi < program_count w a)%nat → EvFinish (task a pi).1 ∈ seg1).
    { intros w1 u Hb. unfold channel_batch in Hb.
      unfold program_count at 3. unfold channel_programs.
      destruct (programs (get_channel w a)) as [ps|] eqn:Hps; [|done].
      unfold and_then, gather_with_concurrency in Hb.
      set (slots := (λ tc : task_id * coro unit, (tc.1, Waiting tc.2))
                      <$> imap (λ pi _, task a pi) ps) in Hb.
      assert (Hsafe : Forall (λ ts : task_id * slot unit,
                        slot_safe always (enrich_rel s) ts.2 ∧ stage_of ts.1 = s) slots).
      { subst slots. apply Forall_fmap, Forall_lookup. intros pi tc Hpi.
        rewrite list_lookup_imap in Hpi. destruct (ps !! pi); [|done].
        injection Hpi as <-. simpl. apply Htask. }
      pose proof (gather_loop_respects always batch_rel batch_rel_steps
                    (λ _ _, eq_refl) sched parallel fuel slots w I) as Hrel.
      destruct (gather_loop_trace s sched parallel fuel slots w) as (seg1 & Htr & _ & _ & Hres).
      { eapply Forall_impl; [exact Hsafe|]. intros [t sl] [Hsl ?]. split; [|done].
        destruct sl; simpl in *; try done;
          (eapply safe_mono'; [|exact Hsl]); by intros ? ? [? _]. }
      destruct (gather_loop fuel sched parallel slots w) as [w' [[l|e]|]]; [|done..].
      injection Hb as <- _. cbn [fst snd] in *. split.
      - apply Hrel. eapply Forall_impl; [exact Hsafe|]. intros [t sl] [Hsl ?].
        split; [|apply batch_rel_task_ok].
        destruct sl; simpl in *; try done;
          (eapply safe_mono'; [|exact Hsl]); by intros ? ? [_ ?].
      - exists seg1. split; [done|]. intros pi Hpi. simpl in Hpi.
        destruct (lookup_lt_is_Some_2 ps pi Hpi) as [p Hp].
        destruct Hres as [Hfin _].
        destruct (Hfin pi (task a pi).1 (Waiting (task a pi).2)) as [[u' ?]|?]; [|done|done].
        subst slots. by rewrite list_lookup_fmap, list_lookup_imap, Hp. }
    destruct (channel_batch fuel sched parallel task a w) as [w1 [[u|e]|]] eqn:Hb; [|done..].
    destruct (Hbatch w1 u eq_refl) as (Hshape1 & seg1 & Htr1 & Hcov1).
    destruct (IH (S a) w1) as (seg2 & Htr2 & Hcov2);
      [intros ci; by rewrite Hshape1|done|].
    exists (seg1 ++ seg2). split; [by rewrite Htr2, Htr1, app_assoc|].
    intros ci pi Hci Hpi. apply elem_of_app.
    destruct (decide (ci = a)) as [->|Hne].
    - left. apply Hcov1. by rewrite Hshape.
    - right. apply Hcov2; [lia|done]. }
  intros Hok. destruct (Hloop (length (channels w0)) 0%nat w0 (λ _, eq_refl) Hok)
    as (seg & Htr & Hcov).
  exists seg. split; [done|]. intros ci pi [p Hp].
  unfold program_at in Hp.
  destruct (channels w0 !! ci) as [c|] eqn:Hc; [|done]. simpl in Hp.
  destruct (programs c) as [ps|] eqn:Hps; [|done]. simpl in Hp.
  apply Hcov.
  - apply lookup_lt_Some in Hc. lia.
  - unfold program_count, get_channel, channel_programs.
    rewrite (list_lookup_total_correct _ _ _ Hc), Hps. simpl. by eapply lookup_lt_Some.
Qed.

(** ** The barrier between the stages *)

(** C5. In the trace of every run, whatever the schedule: when a task starts,
    every task of an earlier stage that was started has returned before, and
    nothing of an earlier stage happens afterwards; and when a task of a
    stage after FetchPrograms starts, the FetchPrograms task of every channel
    of the catalog has returned before.  In particular all FetchPrograms
    tasks return before any FetchDetails task starts.  Each of the three
    loops over the channels (details, cast, images) returns, and so lets the
    next stage begin, only once the task of every program of every channel
    has returned. *)
Theorem stages_run_behind_a_barrier (E : env) (fuel : nat) (sched : nat → nat)
    (catalog : list Channel) (parallel : nat) (create_archive : bool) (size quality : Z)
    (base : string) (w : world) :
  let r := download_and_make_epg E fuel sched catalog parallel create_archive size quality
             base w in
  (∃ tr, trace r.1 = trace w ++ tr
    ∧ ∀ pre t' post, tr = pre ++ EvStart t' :: post →
        (∀ t, (stage_of t < stage_of t')%nat → EvStart t ∈ tr →
              EvStart t ∈ pre ∧ EvFinish t ∈ pre)
        ∧ (∀ ev, ev ∈ post → (stage_of t' ≤ phase ev)%nat)
        ∧ ((1 < stage_of t')%nat → ∀ ci, (ci < length catalog)%nat →
           EvFinish (TPrograms ci) ∈ pre))
  ∧ completes_every_program
      (per_channel fuel sched parallel
         (λ ci pi, (TDetail ci pi, download_program_detail E ci pi))) TDetail
  ∧ completes_every_program
      (per_channel fuel sched parallel
         (λ ci pi, (TCast ci pi, download_program_cast E ci pi))) TCast
  ∧ completes_every_program
      (per_channel fuel sched parallel
         (λ ci pi, (TImages ci pi,
                    download_program_images E ci pi size quality base))) TImages.
Proof.
  intros r.
  assert (Hstage : ∀ s (task : nat → nat → task_id * coro unit),
            (∀ ci pi, safe always (enrich_rel s) (task ci pi).2
                      ∧ stage_of (task ci pi).1 = s) →
            completes_every_program (per_channel fuel sched parallel task)
                                    (λ ci pi, (task ci pi).1)).
  { intros s task Htask w' Hok. by apply (per_channel_covers s). }
  split; [|split; [|split]];
    [|apply (Hstage 2%nat (λ ci pi, (TDetail ci pi, download_program_detail E ci pi)));
      intros; split; [apply enrich_download_program_detail|done]
     |apply (Hstage 3%nat (λ ci pi, (TCast ci pi, download_program_cast E ci pi)));
      intros; split; [apply enrich_download_program_cast|done]
     |apply (Hstage 5%nat (λ ci pi, (TImages ci pi,
                download_program_images E ci pi size quality base)));
      intros; split; [apply enrich_download_program_images|done]].
  destruct (run_trace E fuel sched catalog parallel create_archive size quality base w)
    as (tr & Htr & Hph & Hso & Ha & _).
  fold r in Htr. exists tr. split; [done|].
  intros pre t' post ->.
  assert (Hin' : EvStart t' ∈ pre ++ EvStart t' :: post).
  { apply elem_of_app. right. by left. }
  split; [|split].
  - intros t Hlt Hin. pose proof (stage_of_bounds t).
    destruct (Ha (EvStart t') (stage_of t) Hin' ltac:(simpl; lia)) as (Hfin & _).
    split; (eapply sorted_before; [exact Hso| |simpl; lia]); [done|by apply Hfin].
  - intros ev Hin. apply list_elem_of_lookup in Hin as [j Hj].
    assert (Hi : (pre ++ EvStart t' :: post) !! length pre = Some (EvStart t')).
    { rewrite lookup_app_r by lia. by rewrite Nat.sub_diag. }
    assert (Hj' : (pre ++ EvStart t' :: post) !! (length pre + S j)%nat = Some ev).
    { rewrite lookup_app_r by lia. by replace (length pre + S j - length pre)%nat with (S j) by lia. }
    apply (Hso _ _ _ _ Hi Hj'). lia.
  - intros Hlt ci Hci.
    destruct (Ha (EvStart t') 1%nat Hin' ltac:(simpl; lia)) as (_ & _ & Hcov).
    eapply sorted_before; [exact Hso|by apply Hcov|simpl; lia].
Qed.

(** ** The posters *)



(** ** A channel without a guide id *)

Section skipped_channel.
Context (ci : nat).

Lemma skipped_set_channel (cj : nat) (f : Channel → Channel) (w : world) :
  (cj = ci → ∀ c, unlisted c → unlisted (f c)) →
  skipped ci w → skipped ci (set_channel cj f w).
Proof.
  unfold skipped, get_channel, set_channel. simpl. intros Hf Hw.
  destruct (decide (cj = ci)) as [->|Hne].
  - specialize (Hf eq_refl).
    destruct (decide (ci < length (channels w))%nat) as [Hlt|Hge].
    + rewrite list_lookup_total_alter_eq by done. by apply Hf.
    + rewrite !list_lookup_total_alt, list_lookup_alter_eq in *.
      by rewrite (lookup_ge_None_2 (channels w) ci) in * by lia.
  - by rewrite list_lookup_total_alter_ne.
Qed.

Lemma unlisted_with_programs_alter (f : Program → Program) (pi : nat) (c : Channel) :
  unlisted c → unlisted (with_programs (alter f pi <$> programs c) c).
Proof.
  unfold unlisted, channel_programs, no_tvguide_id. simpl. intros [Hid Hps].
  split; [done|]. destruct (programs c) as [ps|]; simpl in *; [|done]. by subst ps.
Qed.

Lemma unlisted_with_programs_fmap (f : Program → Program) (c : Channel) :
  unlisted c → unlisted (with_programs (fmap (M:=list) f <$> programs c) c).
Proof.
  unfold unlisted, channel_programs, no_tvguide_id. simpl. intros [Hid Hps].
  split; [done|]. destruct (programs c) as [ps|]; simpl in *; [|done]. by subst ps.
Qed.

Lemma no_task_for_nil : no_task_for ci [].
Proof. intros pi. repeat split; by intros H%elem_of_nil. Qed.

Lemma no_task_for_app (s1 s2 : list event) :
  no_task_for ci s1 → no_task_for ci s2 → no_task_for ci (s1 ++ s2).
Proof.
  intros H1 H2 pi. destruct (H1 pi) as (? & ? & ?), (H2 pi) as (? & ? & ?).
  repeat split; by intros [?|?]%elem_of_app.
Qed.

Lemma skip_rel_frame (w w' : world) :
  trace w' = trace w → (skipped ci w → skipped ci w') → skip_rel ci w w'.
Proof.
  intros Ht Hs. split; [done|]. exists []. rewrite app_nil_r. split; [done|].
  apply no_task_for_nil.
Qed.

Lemma skip_rel_event (ev : event) (w : world) :
  (∀ pi, ev ≠ EvStart (TDetail ci pi) ∧ ev ≠ EvStart (TCast ci pi)
         ∧ ev ≠ EvStart (TImages ci pi)) →
  skip_rel ci w (emit ev w).
Proof.
  intros Hev. split; [done|]. exists [ev]. split; [done|].
  intros pi. destruct (Hev pi) as (? & ? & ?).
  repeat split; intros Hin%list_elem_of_singleton; congruence.
Qed.

Lemma skip_rel_steps : steps (skipped ci) (skip_rel ci).
Proof.
  split.
  - intros w. by apply skip_rel_frame.
  - intros w1 w2 w3 (Hs1 & s1 & Ht1 & Hn1) (Hs2 & s2 & Ht2 & Hn2).
    split; [auto|]. exists (s1 ++ s2). split; [by rewrite Ht2, Ht1, app_assoc|].
    by apply no_task_for_app.
  - intros w w' Hw [Hs _]. auto.
Qed.

Lemma skip_rel_admits (E : env) : admits_fetching E (skip_rel ci).
Proof. split; intros; by apply skip_rel_frame. Qed.

Lemma skip_rel_task_ok (t : task_id) :
  (∀ pi, t ≠ TDetail ci pi ∧ t ≠ TCast ci pi ∧ t ≠ TImages ci pi) →
  task_ok (skip_rel ci) t.
Proof.
  intros Ht w. split; [|split; [|intros e]]; apply skip_rel_event; intros pi;
    destruct (Ht pi) as (? & ? & ?); repeat split; congruence.
Qed.

Lemma skip_rel_set_program (cj pi : nat) (f : Program → Program) (w : world) :
  skip_rel ci w (set_program cj pi f w).
Proof.
  apply skip_rel_frame; [done|]. apply skipped_set_channel.
  intros _ c. apply unlisted_with_programs_alter.
Qed.

Lemma skipped_no_program (w : world) (pi : nat) :
  skipped ci w → ¬ (pi < length (channel_programs (get_channel w ci)))%nat.
Proof. intros [_ ->]. simpl. lia. Qed.

Lemma skip_rel_pipeline_ok (E : env) (size quality : Z) (base : string) :
  pipeline_ok E (skipped ci) (skip_rel ci) size quality base.
Proof.
  pose proof skip_rel_steps as HS. pose proof (skip_rel_admits E) as HA.
  split; try done.
  - intros w. by apply skip_rel_frame.
  - intros cj. split; [|by apply skip_rel_task_ok].
    destruct (decide (cj = ci)) as [->|Hne].
    + apply safe_download_programs_skip; [apply HS|by intros w [? _]|].
      intros w _. apply skip_rel_frame; [done|]. apply skipped_set_channel.
      intros _ c [Hid _]. by split.
    + apply safe_download_programs; [apply HS|done|].
      intros ps w _. apply skip_rel_frame; [done|]. by apply skipped_set_channel.
  - intros w cj pi Hw Hpi. destruct (decide (cj = ci)) as [->|Hne];
      [by destruct (skipped_no_program w pi)|].
    split; [|apply skip_rel_task_ok; intros pi'; repeat split; congruence].
    apply safe_download_program_detail; [apply HS|done|].
    intros. apply skip_rel_set_program.
  - intros w cj pi Hw Hpi. destruct (decide (cj = ci)) as [->|Hne];
      [by destruct (skipped_no_program w pi)|].
    split; [|apply skip_rel_task_ok; intros pi'; repeat split; congruence].
    apply safe_download_program_cast; [apply HS|done|].
    intros. apply skip_rel_set_program.
  - intros w cj pi Hw Hpi. destruct (decide (cj = ci)) as [->|Hne];
      [by destruct (skipped_no_program w pi)|].
    split; [|apply skip_rel_task_ok; intros pi'; repeat split; congruence].
    apply safe_download_program_images; [apply HS|done| |].
    + intros. apply skip_rel_set_program.
    + intros path b w' _. split; [done|]. exists [EvWrite path]. split; [done|].
      intros pi'. repeat split; intros Hin%list_elem_of_singleton; congruence.
  - split; [|by apply skip_rel_task_ok].
    apply safe_download_program_tags; [apply HS|done|].
    intros cj new live w _. apply skip_rel_frame; [done|]. apply skipped_set_channel.
    intros _ c. apply unlisted_with_programs_fmap.
  - intros w _. split; [done|]. exists [EvRmtree]. split; [done|].
    intros pi. repeat split; intros Hin%list_elem_of_singleton; congruence.
  - intros w _. split; [done|]. exists [EvEmit]. split; [done|].
    intros pi. repeat split; intros Hin%list_elem_of_singleton; congruence.
  - intros w _. by apply skip_rel_frame.
Qed.
Lemma without_guide_set_channel (cj : nat) (f : Channel → Channel) (w : world) :
  (∀ c, tvguide_id (f c) = tvguide_id c) →
  without_guide ci w → without_guide ci (set_channel cj f w).
Proof.
  unfold without_guide, get_channel, set_channel, no_tvguide_id. simpl. intros Hf Hw.
  destruct (decide (cj = ci)) as [->|Hne]; [|by rewrite list_lookup_total_alter_ne].
  by rewrite (lookup_total_alter_preserved tvguide_id).
Qed.

Lemma listing_rel_frame (w w' : world) :
  trace w' = trace w → (without_guide ci w → without_guide ci w') →
  (skipped ci w → skipped ci w') → listing_rel ci w w'.
Proof. intros Ht Hg Hs. split; [done|]. by apply skip_rel_frame. Qed.

Lemma listing_rel_steps : steps (without_guide ci) (listing_rel ci).
Proof.
  split.
  - intros w. by apply listing_rel_frame.
  - intros w1 w2 w3 [Hg1 H1] [Hg2 H2]. split; [auto|].
    by eapply (steps_trans _ _ skip_rel_steps).
  - intros w w' Hw [Hg _]. auto.
Qed.

Lemma listing_rel_admits (E : env) : admits_fetching E (listing_rel ci).
Proof. split; intros; by apply listing_rel_frame. Qed.

Lemma listing_rel_task_ok (cj : nat) : task_ok (listing_rel ci) (TPrograms cj).
Proof.
  intros w. destruct (skip_rel_task_ok (TPrograms cj) ltac:(done) w) as (? & ? & ?).
  split; [|split; [|intros e]]; (split; [done|]); auto.
Qed.

Lemma listing_rel_assign (cj : nat) (ps : list Program) (w : world) :
  (cj = ci → ps = []) →
  listing_rel ci w (set_channel cj (with_programs (Some ps)) w).
Proof.
  intros Hps. apply listing_rel_frame; [done| |].
  - by apply without_guide_set_channel.
  - apply skipped_set_channel. intros Hcj c [Hid _]. by rewrite (Hps Hcj).
Qed.

Lemma listing_rel_download_programs (E : env) (cj : nat) :
  safe (without_guide ci) (listing_rel ci) (download_programs E cj).
Proof.
  destruct (decide (cj = ci)) as [->|Hne].
  - apply safe_download_programs_skip; [apply listing_rel_steps|done|].
    intros w _. by apply listing_rel_assign.
  - apply safe_download_programs; [apply listing_rel_steps|apply listing_rel_admits|].
    intros ps w _. by apply listing_rel_assign.
Qed.

(** The FetchPrograms task of a channel without a guide id returns after the
    step that leaves the channel without programs. *)
Lemma ensures_download_programs (E : env) :
  ensures (without_guide ci) (skipped ci) (download_programs E ci).
Proof.
  unfold download_programs. simpl. intros w Hw. rewrite Hw. simpl.
  intros w' Hw'. split.
  - by apply (without_guide_set_channel ci (with_programs (Some [])) w').
  - unfold get_channel, set_channel. simpl.
    destruct (decide (ci < length (channels w'))%nat) as [Hlt|Hge].
    + by rewrite list_lookup_total_alter_eq.
    + rewrite list_lookup_total_alt, list_lookup_alter_eq.
      by rewrite (lookup_ge_None_2 (channels w') ci) by lia.
Qed.
End skipped_channel.

Lemma run_download_programs_skip (E : env) (ci : nat) (w : world) :
  no_tvguide_id (get_channel w ci) = true →
  run (download_programs E ci) w = (set_channel ci (with_programs (Some [])) w, Some (Ok tt)).
Proof.
  intros Hno. unfold download_programs. rewrite run_bind, run_read, Hno. apply run_write.
Qed.

Lemma channel_batch_empty (fuel : nat) (sched : nat → nat) (parallel : nat)
    (task : nat → nat → task_id * coro unit) (ci : nat) (w : world) :
  programs (get_channel w ci) = Some [] → (0 < fuel)%nat →
  channel_batch fuel sched parallel task ci w = (w, Some (Ok tt)).
Proof.
  intros Hps Hfuel. unfold channel_batch. rewrite Hps.
  destruct fuel as [|fuel]; [lia|].
  unfold and_then, gather_with_concurrency. cbn [imap fmap list_fmap gather_loop].
  unfold options. simpl. by destruct (decide _).
Qed.

(** C7. A channel of the catalog without a guide id: its FetchPrograms task
    assigns the empty list and returns, without a request (the world changes
    in nothing else); the batch that a later stage makes for a channel with
    the empty list has no task and leaves the world as it is; and in the
    trace of every run no FetchDetails, FetchCast or FetchImages task starts
    for a program of the channel, which has no program at the end of a run
    that returns (nor at the end of any run, when it had none in the
    catalog). *)
Theorem channel_without_guide_id_is_skipped (E : env) (fuel : nat) (sched : nat → nat)
    (catalog : list Channel) (parallel : nat) (create_archive : bool) (size quality : Z)
    (base : string) (w : world) (ci : nat) (c : Channel) :
  catalog !! ci = Some c → no_tvguide_id c = true →
  (∀ w', get_channel w' ci = c →
     run (download_programs E ci) w' = (set_channel ci (with_programs (Some [])) w', Some (Ok tt))
     ∧ fetched (set_channel ci (with_programs (Some [])) w') = fetched w'
     ∧ ((ci < length (channels w'))%nat →
        programs (get_channel (set_channel ci (with_programs (Some [])) w') ci) = Some []))
  ∧ (∀ w' task, programs (get_channel w' ci) = Some [] → (0 < fuel)%nat →
       channel_batch fuel sched parallel task ci w' = (w', Some (Ok tt)))
  ∧ let r := download_and_make_epg E fuel sched catalog parallel create_archive size quality
               base w in
    ∃ tr, trace r.1 = trace w ++ tr
      ∧ no_task_for ci tr
      ∧ (r.2 = Some (Ok tt) ∨ channel_programs c = [] →
         channel_programs (get_channel r.1 ci) = []).
Proof.
  intros Hc Hno. split; [|split].
  - intros w' Hw'. split; [apply run_download_programs_skip; by rewrite Hw'|].
    split; [done|]. intros Hlt. unfold get_channel, set_channel. simpl.
    by rewrite list_lookup_total_alter_eq.
  - intros w' task. apply channel_batch_empty.
  - intros r. subst r.
    set (w1 := set_channels (λ _, catalog) w).
    assert (Hrun : download_and_make_epg E fuel sched catalog parallel create_archive size
                     quality base w
                   = download_and_make_epg_loaded E fuel sched parallel create_archive size
                       quality base w1).
    { unfold download_and_make_epg, and_then. by rewrite run_write. }
    rewrite Hrun. clear Hrun.
    assert (Hw1 : without_guide ci w1).
    { unfold without_guide, get_channel. simpl. by rewrite (list_lookup_total_correct _ _ _ Hc). }
    assert (Hc1 : channel_programs c = [] → skipped ci w1).
    { intros Hps. unfold skipped, get_channel. simpl.
      by rewrite (list_lookup_total_correct _ _ _ Hc). }
    set (tasks := imap (λ cj _, (TPrograms cj, download_programs E cj)) (channels w1)).
    assert (Hload : download_and_make_epg_loaded E fuel sched parallel create_archive size
                      quality base w1
                    = match gather_loop fuel sched parallel
                              ((λ tc : task_id * coro unit, (tc.1, Waiting tc.2)) <$> tasks)
                              w1 with
                      | (w', Some (Ok _)) =>
                          enrich_and_emit E fuel sched parallel create_archive size quality
                            base w'
                      | (w', Some (Exc e)) => (w', Some (Exc e))
                      | (w', None) => (w', None)
                      end) by done.
    rewrite Hload. clear Hload.
    assert (Htasks : Forall (λ tc : task_id * coro unit,
                        safe (without_guide ci) (listing_rel ci) tc.2
                        ∧ task_ok (listing_rel ci) tc.1) tasks).
    { apply Forall_lookup. intros cj tc Hcj. subst tasks. rewrite list_lookup_imap in Hcj.
      destruct (channels w1 !! cj); [|done]. injection Hcj as <-. simpl.
      split; [apply listing_rel_download_programs|apply listing_rel_task_ok]. }
    pose proof (gather_with_concurrency_respects (without_guide ci) (listing_rel ci)
                  (listing_rel_steps ci) (λ w', listing_rel_frame ci w' _ eq_refl id id)
                  sched parallel fuel tasks Htasks w1 Hw1) as (_ & Hs1 & seg1 & Htr1 & Hno1).
    pose proof (gather_loop_ensures (without_guide ci) (listing_rel ci)
                  (listing_rel_steps ci) (λ w', listing_rel_frame ci w' _ eq_refl id id)
                  sched parallel (skipped ci) (λ w' w'' Hq Hr, proj1 (proj2 Hr) Hq)
                  ci fuel ((λ tc : task_id * coro unit, (tc.1, Waiting tc.2)) <$> tasks)
                  w1 Hw1) as Hdone.
    unfold gather_with_concurrency in *.
    assert (Hdone' : (∃ l, (gather_loop fuel sched parallel
                              ((λ tc : task_id * coro unit, (tc.1, Waiting tc.2)) <$> tasks)
                              w1).2 = Some (Ok l)) →
                     skipped ci (gather_loop fuel sched parallel
                              ((λ tc : task_id * coro unit, (tc.1, Waiting tc.2)) <$> tasks)
                              w1).1).
    { apply Hdone.
      - apply Forall_fmap. eapply Forall_impl; [exact Htasks|]. by intros [t c'].
      - exists (TPrograms ci), (Waiting (download_programs E ci)). split.
        + subst tasks. rewrite list_lookup_fmap, list_lookup_imap. simpl. by rewrite Hc.
        + apply ensures_download_programs. }
    clear Hdone.
    destruct (gather_loop fuel sched parallel _ w1) as [w2 [[l|e]|]]; cbn [fst snd] in *.
    + specialize (Hdone' (ex_intro _ l eq_refl)).
      pose proof (enrich_and_emit_respects E (skipped ci) (skip_rel ci) fuel sched
                    parallel create_archive size quality base
                    (skip_rel_pipeline_ok ci E size quality base) w2 Hdone')
        as (Hs2 & seg2 & Htr2 & Hno2).
      exists (seg1 ++ seg2). split; [by rewrite Htr2, Htr1, app_assoc|].
      split; [by apply no_task_for_app|]. intros _. by apply Hs2.
    + exists seg1. split; [done|]. split; [done|]. intros [?|Hps]; [done|].
      by apply Hs1, Hc1.
    + exists seg1. split; [done|]. split; [done|]. intros [?|Hps]; [done|].
      by apply Hs1, Hc1.
Qed.

Lemma channel_without_guide_id_is_skipped_witness :
  let r := download_and_make_epg Demo.E 100 (λ _, 0%nat) Demo.catalog 2 true 720 80
             "http://base" Demo.w0 in
  ∃ tr, trace r.1 = trace Demo.w0 ++ tr ∧ no_task_for 1 tr
        ∧ (r.2 = Some (Ok tt) ∨ channel_programs (mkChannel None "local" "Local" "en" None) = []
           → channel_programs (get_channel r.1 1) = []).
Proof.
  exact (proj2 (proj2 (channel_without_guide_id_is_skipped Demo.E 100 (λ _, 0%nat)
                         Demo.catalog 2 true 720 80 "http://base" Demo.w0 1
                         (mkChannel None "local" "Local" "en" None)
                         eq_refl eq_refl))).
Defined.

(** ** A complete run *)

(** The [Demo] catalog against the [Demo] guide, two tasks at a time, the
    scheduler taking the tasks in turn: the run returns and emits the guide;
    the two tasks of each batch overlap, the stages do not. *)
Example demo_run_emits_the_guide :
  let r := download_and_make_epg Demo.E 16 (λ i, i) Demo.catalog 2 false 300 80
             "http://host/" Demo.w0 in
  r.2 = Some (Ok tt)
  ∧ is_Some (xmltv r.1)
  ∧ trace r.1 =
      [EvStart (TPrograms 0); EvFinish (TPrograms 0);
       EvStart (TPrograms 1); EvFinish (TPrograms 1);
       EvStart (TDetail 0 0); EvStart (TDetail 0 1);
       EvFinish (TDetail 0 1); EvFinish (TDetail 0 0);
       EvStart (TCast 0 0); EvStart (TCast 0 1);
       EvFinish (TCast 0 1); EvFinish (TCast 0 0); EvRmtree;
       EvStart (TImages 0 0); EvStart (TImages 0 1);
       EvWrite "a/42.jpg"; EvFinish (TImages 0 1);
       EvWrite "a/42.jpg"; EvFinish (TImages 0 0);
       EvStart TTags; EvFinish TTags; EvEmit].
Proof. vm_compute. split; [done|]. split; [by eexists|done]. Qed.

(** With a semaphore of zero no task is ever admitted: the run does not
    return. *)
Example demo_run_without_permits :
  (download_and_make_epg Demo.E 16 (λ i, i) Demo.catalog 0 false 300 80
     "http://host/" Demo.w0).2 = None.
Proof. by vm_compute. Qed.
